(** * The spreadsheet command engine of [backend/src/services/spreadsheetService.ts]

    A shallow embedding of the column codec, the command parser
    ([parseCommand]) and the single-writer store ([processUserMessage]) of
    the in-memory [SpreadsheetDataStore], followed by the properties that
    the specification states about them.

    Conventions of the embedding.
    - A JavaScript [number] that holds an integer is a [Z]; the code only
      ever adds, compares, divides by 26 and takes minima and maxima of
      integers, so nothing of the floating-point representation is used
      (integers beyond 2^53 are outside the model).
    - A JavaScript string is a [string] whose characters are its code
      units, each below 256; white space, [toUpperCase] and the character
      classes of the regular expressions are those of JavaScript on these
      code units. Text with a code unit from 256 on is outside the model,
      and the properties that speak of the words, the white space or the
      case of a message are stated for 7-bit messages ([sevenBit]).
    - The regular expressions of the parser are values of an abstract syntax
      ([Regex.regex]) run by a backtracking matcher with the greedy,
      leftmost semantics of the JavaScript engine.
    - The store is threaded explicitly: a method of the class is a function
      [Store -> Store * (CustomError + A)]; an exception keeps the mutations
      made before it was thrown, as in the source.
    - Clock readings and random identifiers ([new Date()], [Date.now()],
      [Math.random()]) are inputs of a call, gathered in an [Oracle].
    - Logging and the WebSocket broadcast are calls into other services
      that do not touch the store and do not throw; they are left out. *)

From Stdlib Require Import ZArith String Ascii DecimalString Lia.
From stdpp Require Import base numbers option list strings gmap.

Open Scope string_scope.
Open Scope Z_scope.

(** ** JavaScript strings *)

Module Js.

(** [s.charCodeAt(i)] for one character. *)
Definition charCode (c : ascii) : Z := Z.of_N (N_of_ascii c).

(** [String.fromCharCode(n)]. *)
Definition fromCharCode (n : Z) : ascii := ascii_of_N (Z.to_N n).

Definition isUpper (c : ascii) : bool :=
  (65 <=? charCode c) && (charCode c <=? 90).

Definition isLower (c : ascii) : bool :=
  (97 <=? charCode c) && (charCode c <=? 122).

Definition isDigit (c : ascii) : bool :=
  (48 <=? charCode c) && (charCode c <=? 57).

(** The class [\s], which is also the white space that [trim] removes:
    TAB, LF, VT, FF, CR, SPACE and NO-BREAK SPACE (code unit 160), its
    members below code unit 256. *)
Definition isSpace (c : ascii) : bool :=
  ((9 <=? charCode c) && (charCode c <=? 13)) || (charCode c =? 32)
  || (charCode c =? 160).

(** Line terminators, which [.] does not match. *)
Definition isLineTerminator (c : ascii) : bool :=
  (charCode c =? 10) || (charCode c =? 13).

(** The capital of a letter from a to z, any other character as it is:
    the case folding that the regular expressions of the parser need under
    the [i] flag, where a character is compared with 7-bit letters only. *)
Definition upperChar (c : ascii) : ascii :=
  if isLower c then fromCharCode (charCode c - 32) else c.

(** [c.toUpperCase()] for one code unit: the sharp s (code unit 223)
    becomes ["SS"]; the letters of the code units 224 to 254, the division
    sign 247 apart, lose 32 as the letters a to z do. The capitals of the
    micro sign (181) and of code unit 255 lie beyond code unit 255; the
    two are left as they are, which this program cannot tell from their
    capitals: it only reads upper-cased text that is made of the letters A
    to Z, digits and a hyphen, and rejects the rest. *)
Definition toUpperCaseChar (c : ascii) : string :=
  let n := charCode c in
  if n =? 223 then String (fromCharCode 83) (String (fromCharCode 83) EmptyString)
  else if (224 <=? n) && (n <=? 254) && negb (n =? 247)
       then String (fromCharCode (n - 32)) EmptyString
       else String (upperChar c) EmptyString.

(** [s.toUpperCase()]. *)
Fixpoint toUpperCase (s : string) : string :=
  match s with
  | EmptyString => EmptyString
  | String c s' => toUpperCaseChar c +:+ toUpperCase s'
  end.

Fixpoint trimStart (s : string) : string :=
  match s with
  | EmptyString => EmptyString
  | String c s' => if isSpace c then trimStart s' else s
  end.

Fixpoint trimEnd (s : string) : string :=
  match s with
  | EmptyString => EmptyString
  | String c s' =>
      match trimEnd s' with
      | EmptyString => if isSpace c then EmptyString else String c EmptyString
      | t => String c t
      end
  end.

(** [s.trim()]. *)
Definition trim (s : string) : string := trimEnd (trimStart s).

(** [s.split(/\s+/)]: the pieces between maximal runs of white space; a
    run at either end of [s] leaves an empty piece there, and the empty
    string splits into one empty piece. [cur] is the piece being read and
    [inSep] tells that the previous character was white space. *)
Fixpoint splitGo (s : string) (inSep : bool) (cur : string) : list string :=
  match s with
  | EmptyString => [cur]
  | String c s' =>
      if isSpace c then
        if inSep then splitGo s' true cur
        else cur :: splitGo s' true EmptyString
      else splitGo s' false (cur +:+ String c EmptyString)
  end.

Definition splitSpaces (s : string) : list string := splitGo s false EmptyString.

(** [parts.join(sep)]. *)
Fixpoint join (sep : string) (parts : list string) : string :=
  match parts with
  | [] => EmptyString
  | [p] => p
  | p :: rest => p +:+ sep +:+ join sep rest
  end.

(** [parts.slice(1)]. *)
Definition slice1 (parts : list string) : list string := tail parts.

(** [parseInt(s)] on the text of a [\d+] capture: the value of the leading
    run of decimal digits. The parser passes nothing else, so the sign,
    radix prefix and NaN cases of [parseInt] do not arise. *)
Fixpoint parseIntGo (s : string) (acc : Z) : Z :=
  match s with
  | EmptyString => acc
  | String c s' =>
      if isDigit c then parseIntGo s' (acc * 10 + (charCode c - 48)) else acc
  end.

Definition parseInt (s : string) : Z := parseIntGo s 0.

(** An integer inside a template literal. *)
Definition showNumber (n : Z) : string := NilZero.string_of_int (Z.to_int n).

(** The double quote character, for the messages that quote a value. *)
Definition dquote : string := String (ascii_of_nat 34) EmptyString.

(** [a[i]] on an array that may have holes: a hole and an index out of
    range both read as [undefined], here [None]. *)
Definition arrayGet {A} (a : list (option A)) (i : Z) : option A :=
  if i <? 0 then None else mjoin (a !! Z.to_nat i).

(** [a[i] = v] for an index [0 <= i]: inside the array the slot is
    replaced, beyond its end the array is extended with holes up to [i]. *)
Definition arraySet {A} (a : list (option A)) (i : Z) (v : A) : list (option A) :=
  let n := Z.to_nat i in
  if (n <? length a)%nat then <[n := Some v]> a
  else a ++ replicate (n - length a) None ++ [Some v].

(** A value of type string inside a template literal; [undefined] prints
    as the word. *)
Definition showString (o : option string) : string := default "undefined" o.

End Js.

(** ** Regular expressions *)

Module Regex.

Inductive regex : Type :=
| Eps
| Chr (p : ascii -> bool)
| Seq (r1 r2 : regex)
| Alt (r1 r2 : regex)
| Star (r : regex)
| Cap (i : nat) (r : regex)
| Bol
| Eol.

Definition Plus (r : regex) : regex := Seq r (Star r).
Definition Opt (r : regex) : regex := Alt r Eps.

Infix "&>" := Seq (at level 60, right associativity).

(** Captured groups, by number. *)
Definition captures : Type := gmap nat string.

Definition cont : Type := string -> captures -> option captures.

(** [run r total s caps k] matches [r] at the front of [s], the rest of an
    input of [total] characters, and hands what is left to [k]; when [k]
    fails the matcher backtracks into [r]. Alternatives are tried left to
    right and [Star] is greedy. An iteration of [Star] that consumes
    nothing is refused, so the length of the input bounds the number of
    iterations. *)
Fixpoint run (r : regex) (total : nat) (s : string) (caps : captures)
    (k : cont) {struct r} : option captures :=
  match r with
  | Eps => k s caps
  | Chr p =>
      match s with
      | String c s' => if p c then k s' caps else None
      | EmptyString => None
      end
  | Seq r1 r2 => run r1 total s caps (fun s' caps' => run r2 total s' caps' k)
  | Alt r1 r2 =>
      match run r1 total s caps k with
      | Some res => Some res
      | None => run r2 total s caps k
      end
  | Star r1 =>
      (fix iter (fuel : nat) (s : string) (caps : captures) : option captures :=
         match fuel with
         | O => k s caps
         | S fuel' =>
             match run r1 total s caps
                     (fun s' caps' =>
                        if (String.length s' <? String.length s)%nat
                        then iter fuel' s' caps' else None) with
             | Some res => Some res
             | None => k s caps
             end
         end) (String.length s) s caps
  | Cap i r1 =>
      run r1 total s caps
        (fun s' caps' =>
           k s' (<[i := substring 0 (String.length s - String.length s') s]> caps'))
  | Bol => if (String.length s =? total)%nat then k s caps else None
  | Eol => match s with EmptyString => k s caps | _ => None end
  end.

Fixpoint searchFrom (r : regex) (total : nat) (s : string) : option captures :=
  match run r total s ∅ (fun _ caps => Some caps) with
  | Some caps => Some caps
  | None =>
      match s with
      | EmptyString => None
      | String _ s' => searchFrom r total s'
      end
  end.

(** [s.match(r)] for a regular expression without the [g] flag: the
    groups of the leftmost match, or [None] for [null]. *)
Definition exec (r : regex) (s : string) : option captures :=
  searchFrom r (String.length s) s.

(** Group [i] of a match. Every group read by the parser is mandatory in
    its pattern, so it is present whenever the pattern matched. *)
Definition group (m : captures) (i : nat) : string := default EmptyString (m !! i).

(** Character classes. The [i]-flag variants compare after upper-casing,
    as the engine's canonicalisation does. *)
Definition upper : regex := Chr Js.isUpper.
Definition upper_i : regex := Chr (fun c => Js.isUpper (Js.upperChar c)).
Definition digit : regex := Chr Js.isDigit.
Definition space : regex := Chr Js.isSpace.
Definition dot : regex := Chr (fun c => negb (Js.isLineTerminator c)).
Definition chr (a : ascii) : regex := Chr (Ascii.eqb a).

Fixpoint lit_i (w : string) : regex :=
  match w with
  | EmptyString => Eps
  | String a w' =>
      Chr (fun c => Ascii.eqb (Js.upperChar c) (Js.upperChar a)) &> lit_i w'
  end.

End Regex.

(** ** The column codec *)

Definition MAX_ROWS : Z := 100.
Definition INITIAL_ROWS : Z := 100.

(** The [while (index >= 0)] loop of [columnIndexToLetter]. Each turn
    replaces [index] by [Math.floor(index / 26) - 1], which is less than
    half of it, so [loopBound index] turns are more than the loop takes
    ([columnIndexToLetterLoop_fuel] below). *)
Fixpoint columnIndexToLetterLoop (fuel : nat) (index : Z) (result : string) : string :=
  match fuel with
  | O => result
  | S fuel' =>
      if 0 <=? index then
        columnIndexToLetterLoop fuel' (index / 26 - 1)
          (String (Js.fromCharCode (65 + Z.rem index 26)) result)
      else result
  end.

Definition loopBound (index : Z) : nat := S (Z.to_nat (Z.log2 (index + 1))).

Definition columnIndexToLetter (index : Z) : string :=
  columnIndexToLetterLoop (loopBound index) index "".

Fixpoint letterToColumnIndexLoop (letter : string) (result : Z) : Z :=
  match letter with
  | EmptyString => result
  | String c rest => letterToColumnIndexLoop rest (result * 26 + (Js.charCode c - 64))
  end.

Definition letterToColumnIndex (letter : string) : Z :=
  letterToColumnIndexLoop letter 0 - 1.

Definition generateColumnHeaders (count : Z) : list string :=
  columnIndexToLetter <$> seqZ 0 count.

(** The loop of [parseColumn]; [None] is its early [return -1]. *)
Fixpoint parseColumnLoop (upperCol : string) (result : Z) : option Z :=
  match upperCol with
  | EmptyString => Some result
  | String c rest =>
      let charCode := Js.charCode c in
      if (charCode <? 65) || (90 <? charCode) then None
      else parseColumnLoop rest (result * 26 + (charCode - 64))
  end.

(** The private method [parseColumn]; no method of the class calls it. *)
Definition parseColumn (colStr : string) : Z :=
  let upperCol := Js.toUpperCase colStr in
  match parseColumnLoop upperCol 0 with
  | None => -1
  | Some result => if 702 <? result then -1 else result - 1
  end.

(** ** Data *)

Module CustomError.
Record t : Type := mk { message : string; statusCode : Z }.
End CustomError.

Module Format.
Record t : Type := mk { bold : bool; italic : bool; color : string; backgroundColor : string }.
End Format.

Module Cell.
Record t : Type := mk { row : Z; col : Z; value : string; format : Format.t }.
End Cell.

Module Grid.
(** [SpreadsheetState]. [headers] is a JavaScript array: an assignment
    beyond its end would leave holes, so its slots are optional. *)
Record t : Type := mk {
  cells : list Cell.t;
  rows : Z;
  columns : Z;
  headers : list (option string)
}.

Definition setCells (v : list Cell.t) (g : t) : t := mk v (rows g) (columns g) (headers g).
Definition setRows (v : Z) (g : t) : t := mk (cells g) v (columns g) (headers g).
Definition setColumns (v : Z) (g : t) : t := mk (cells g) (rows g) v (headers g).
Definition setHeaders (v : list (option string)) (g : t) : t := mk (cells g) (rows g) (columns g) v.
End Grid.

Module UserEvent.
Record t : Type := mk {
  id : string; message : string; timestamp : Z; userId : string; sessionId : string
}.
End UserEvent.

Module Target.
Record t : Type := mk { row : Z; col : Z }.
End Target.

Inductive ActionKind : Type := UPDATE_CELL | ACTION_HEADER_RENAME | GENERAL_MESSAGE.

(** The free-form [data] object of an action event, one constructor per
    shape the store builds. *)
Inductive ActionData : Type :=
| ValueData (value : string)
| RangeData (value range : string) (cellsUpdated : Z)
| HeaderData (oldHeader : option string) (newHeader : string)
| MessageData (message : string).

Module ActionEvent.
Record t : Type := mk {
  id : string; timestamp : Z; action : ActionKind; target : Target.t;
  data : ActionData; message : string
}.
End ActionEvent.

Inductive StateKind : Type := CELL_UPDATE | STATE_HEADER_RENAME.

Module CellData.
Record t : Type := mk { row : Z; col : Z; value : string }.
End CellData.

Module StateEvent.
Record t : Type := mk { id : string; timestamp : Z; type : StateKind; cellData : CellData.t }.
End StateEvent.

(** [ParsedCommand], by its [type] tag. The fields that
    [processUserMessage] tests against [undefined] or prints unchecked are
    optional; those it reads through a non-null assertion are present. *)
Inductive ParsedCommand : Type :=
| SINGLE (cell : option string) (col row : option Z) (value originalCommand : string)
| RANGE (startCell endCell : option string) (startCol startRow endCol endRow : Z)
    (value originalCommand : string)
| HEADER_RENAME (col : Z) (value originalCommand : string).

Definition commandValue (c : ParsedCommand) : string :=
  match c with
  | SINGLE _ _ _ v _ | RANGE _ _ _ _ _ _ v _ | HEADER_RENAME _ v _ => v
  end.

Module Result.
Record t : Type := mk {
  userEvent : UserEvent.t;
  actionEvent : ActionEvent.t;
  stateEvent : StateEvent.t;
  parsedCommand : ParsedCommand
}.
End Result.

(** The fields of [SpreadsheetDataStore]. *)
Module Store.
Record t : Type := mk {
  userEvents : list UserEvent.t;
  actionEvents : list ActionEvent.t;
  stateEvents : list StateEvent.t;
  spreadsheetState : Grid.t
}.
End Store.

(** What one call of [processUserMessage] reads from the clock and from the
    random generator: [new Date()], and for each of the three identifiers
    [Date.now()] and [Math.random().toString(36).substr(2, 9)]. *)
Module Oracle.
Record t : Type := mk {
  newDate : Z;
  userNow : Z; userRandom : string;
  actionNow : Z; actionRandom : string;
  stateNow : Z; stateRandom : string
}.
End Oracle.

(** ** Methods: state and exceptions *)

Definition M (A : Type) : Type := Store.t -> Store.t * (CustomError.t + A).

Definition ret {A} (a : A) : M A := fun s => (s, inr a).

Definition bind {A B} (m : M A) (k : A -> M B) : M B :=
  fun s => match m s with
           | (s', inr a) => k a s'
           | (s', inl e) => (s', inl e)
           end.

Definition throw {A} (e : CustomError.t) : M A := fun s => (s, inl e).

(** [try { body } catch (error) { handler }]: the handler runs in the store
    as the body left it. *)
Definition tryCatch {A} (body : M A) (handler : CustomError.t -> M A) : M A :=
  fun s => match body s with
           | (s', inr a) => (s', inr a)
           | (s', inl e) => handler e s'
           end.

Definition getState : M Grid.t := fun s => (s, inr (Store.spreadsheetState s)).

Definition modifyState (f : Grid.t -> Grid.t) : M unit :=
  fun s => (Store.mk (Store.userEvents s) (Store.actionEvents s) (Store.stateEvents s)
              (f (Store.spreadsheetState s)), inr tt).

Definition pushUserEvent (e : UserEvent.t) : M unit :=
  fun s => (Store.mk (Store.userEvents s ++ [e]) (Store.actionEvents s) (Store.stateEvents s)
              (Store.spreadsheetState s), inr tt).

Definition pushActionEvent (e : ActionEvent.t) : M unit :=
  fun s => (Store.mk (Store.userEvents s) (Store.actionEvents s ++ [e]) (Store.stateEvents s)
              (Store.spreadsheetState s), inr tt).

Definition pushStateEvent (e : StateEvent.t) : M unit :=
  fun s => (Store.mk (Store.userEvents s) (Store.actionEvents s) (Store.stateEvents s ++ [e])
              (Store.spreadsheetState s), inr tt).

Notation "x <- c1 ;; c2" := (bind c1 (fun x => c2))
  (at level 100, c1 at next level, right associativity).
Notation "c1 ;; c2" := (bind c1 (fun _ => c2))
  (at level 100, right associativity).

(** ** The command parser *)

Import Regex.

(** [/^change\s+column\s+([A-Z]+)\s+(?:header\s+name\s+)?to\s+(.+)$/i] *)
Definition renamePattern : regex :=
  Bol &> lit_i "change" &> Plus space &> lit_i "column" &> Plus space &>
  Cap 1 (Plus upper_i) &> Plus space &>
  Opt (lit_i "header" &> Plus space &> lit_i "name" &> Plus space) &>
  lit_i "to" &> Plus space &> Cap 2 (Plus dot) &> Eol.

(** [/^([A-Z]+)(\d+)-([A-Z]*\d+)$/] *)
Definition rangePattern : regex :=
  Bol &> Cap 1 (Plus upper) &> Cap 2 (Plus digit) &> chr "-" &>
  Cap 3 (Star upper &> Plus digit) &> Eol.

(** The regular expression of [endCell.match]: like the pattern of a
    single cell below, with the letters of group 1 optional (zero or more). *)
Definition endPattern : regex :=
  Bol &> Cap 1 (Star upper) &> Cap 2 (Plus digit) &> Eol.

(** [/^([A-Z]+)(\d+)$/] *)
Definition cellPattern : regex :=
  Bol &> Cap 1 (Plus upper) &> Cap 2 (Plus digit) &> Eol.

Definition parseCommand (message : string) : M ParsedCommand :=
  let trimmedMessage := Js.trim message in
  let parts := Js.splitSpaces trimmedMessage in
  if (length parts <? 2)%nat then
    throw (CustomError.mk
             "Invalid command format. Use: <cell> <value> or <range> <value>" 400)
  else
    match exec renamePattern trimmedMessage with
    | Some renameMatch =>
        let columnLetter := Js.toUpperCase (group renameMatch 1) in
        let newName := Js.trim (group renameMatch 2) in
        let colIndex := letterToColumnIndex columnLetter in
        st <- getState ;;
        if (colIndex <? 0) || (colIndex >=? Grid.columns st) then
          throw (CustomError.mk ("Invalid column: " +:+ columnLetter) 400)
        else ret (HEADER_RENAME colIndex newName trimmedMessage)
    | None =>
        let cellOrRange := Js.toUpperCase (default "" (head parts)) in
        let value := Js.join " " (Js.slice1 parts) in
        match exec rangePattern cellOrRange with
        | Some rangeMatch =>
            let startCol := group rangeMatch 1 in
            let startRow := group rangeMatch 2 in
            let endCell := group rangeMatch 3 in
            let startCell := startCol +:+ startRow in
            match exec endPattern endCell with
            | None => throw (CustomError.mk "Invalid range format" 400)
            | Some endMatch =>
                let endCol := group endMatch 1 in
                let endRow := group endMatch 2 in
                let startColIndex := letterToColumnIndex startCol in
                let startRowIndex := Js.parseInt startRow in
                let endColIndex :=
                  if String.eqb endCol "" then startColIndex
                  else letterToColumnIndex endCol in
                let endRowIndex := Js.parseInt endRow in
                ret (RANGE (Some startCell) (Some endCell) startColIndex startRowIndex
                       endColIndex endRowIndex value trimmedMessage)
            end
        | None =>
            match exec cellPattern cellOrRange with
            | None => throw (CustomError.mk "Invalid cell format. Use: A1, B5, etc." 400)
            | Some cellMatch =>
                let column := group cellMatch 1 in
                let row := group cellMatch 2 in
                let colIndex := letterToColumnIndex column in
                let rowIndex := Js.parseInt row in
                if rowIndex <? 1 then
                  throw (CustomError.mk "Row number must be at least 1" 400)
                else
                  ret (SINGLE (Some cellOrRange) (Some colIndex) (Some rowIndex)
                         value trimmedMessage)
            end
        end
    end.

(** ** The store *)

Definition defaultFormat : Format.t := Format.mk false false "#000000" "#ffffff".

(** The auto-expansion block shared by the SINGLE branch and the body of the
    RANGE loop: [row] is the 1-based row, [col] the 0-based column. Rows
    grow up to [MAX_ROWS]; new columns regenerate every header. *)
Definition autoExpand (row col : Z) (g : Grid.t) : Grid.t :=
  let newRows := Z.min (Z.max (Grid.rows g) row) MAX_ROWS in
  let newColumns := Z.max (Grid.columns g) (col + 1) in
  let g1 := if newRows >? Grid.rows g then Grid.setRows newRows g else g in
  if newColumns >? Grid.columns g1 then
    Grid.setHeaders (Some <$> generateColumnHeaders newColumns)
      (Grid.setColumns newColumns g1)
  else g1.

#[global] Instance at_coordinate_dec (rowIndex col : Z) (c : Cell.t) :
  Decision (Cell.row c = rowIndex /\ Cell.col c = col).
Proof. apply and_dec; apply Z.eq_dec. Defined.

(** [cells.findIndex(cell => cell.row === rowIndex && cell.col === col)] *)
Definition findIndex (rowIndex col : Z) (cells : list Cell.t) : Z :=
  match list_find (fun c => Cell.row c = rowIndex /\ Cell.col c = col) cells with
  | Some (i, _) => Z.of_nat i
  | None => -1
  end.

(** Replace the cell found by [findIndex], which is an index of the array,
    or push a new one. *)
Definition upsertCell (cellData : Cell.t) (cells : list Cell.t) : list Cell.t :=
  let existingCellIndex := findIndex (Cell.row cellData) (Cell.col cellData) cells in
  if existingCellIndex >=? 0 then <[Z.to_nat existingCellIndex := cellData]> cells
  else cells ++ [cellData].

(** The body of the two nested [for] loops of the RANGE branch, on the grid
    and the local array [cellsUpdated]. *)
Definition rangeStep (value : string) (row col : Z)
    (acc : Grid.t * list Cell.t) : Grid.t * list Cell.t :=
  let g := autoExpand row col (fst acc) in
  let rowIndex := row - 1 in
  let cellData := Cell.mk rowIndex col value defaultFormat in
  (Grid.setCells (upsertCell cellData (Grid.cells g)) g, (snd acc ++ [cellData])%list).

(** [for (x = lo; x <= hi; x++)] visits [lo], [lo + 1], ..., [hi]. *)
Definition fromTo (lo hi : Z) : list Z := seqZ lo (hi - lo + 1).

Definition rangeLoop (value : string) (startRow endRow startCol endCol : Z)
    (acc : Grid.t * list Cell.t) : Grid.t * list Cell.t :=
  foldl (fun acc row =>
           foldl (fun acc col => rangeStep value row col acc) acc (fromTo startCol endCol))
        acc (fromTo startRow endRow).

(** [userId || 'anonymous'] *)
Definition orElse (o : option string) (d : string) : string :=
  match o with
  | Some s => if String.eqb s "" then d else s
  | None => d
  end.

Definition freshId (prefix : string) (now : Z) (random : string) : string :=
  prefix +:+ "_" +:+ Js.showNumber now +:+ "_" +:+ random.

(** The branch of [processUserMessage] for the parsed command: it updates
    the grid and builds the two events. *)
Definition applyCommand (o : Oracle.t) (parsedCommand : ParsedCommand)
    : M (ActionEvent.t * StateEvent.t) :=
  let timestamp := Oracle.newDate o in
  let actionId := freshId "action" (Oracle.actionNow o) (Oracle.actionRandom o) in
  let stateId := freshId "state" (Oracle.stateNow o) (Oracle.stateRandom o) in
  match parsedCommand with
  | SINGLE cell (Some col) (Some row) value _ =>
      let rowIndex := row - 1 in
      modifyState (autoExpand row col) ;;
      let cellData := Cell.mk rowIndex col value defaultFormat in
      modifyState (fun g => Grid.setCells (upsertCell cellData (Grid.cells g)) g) ;;
      ret (ActionEvent.mk actionId timestamp UPDATE_CELL (Target.mk rowIndex col)
             (ValueData value) ("Updated cell " +:+ Js.showString cell),
           StateEvent.mk stateId timestamp CELL_UPDATE (CellData.mk rowIndex col value))
  | RANGE startCell endCell startCol startRow endCol endRow value _ =>
      g <- getState ;;
      let '(g', cellsUpdated) := rangeLoop value startRow endRow startCol endCol (g, []) in
      modifyState (fun _ => g') ;;
      let range := Js.showString startCell +:+ "-" +:+ Js.showString endCell in
      let count := Z.of_nat (length cellsUpdated) in
      ret (ActionEvent.mk actionId timestamp UPDATE_CELL (Target.mk startRow startCol)
             (RangeData value range count)
             ("Updated range " +:+ range +:+ " with " +:+ Js.dquote +:+ value
                +:+ Js.dquote +:+ " (" +:+ Js.showNumber count +:+ " cells)"),
           StateEvent.mk stateId timestamp CELL_UPDATE (CellData.mk startRow startCol value))
  | HEADER_RENAME colIndex newName _ =>
      g <- getState ;;
      if (colIndex <? 0) || (colIndex >=? Grid.columns g) then
        throw (CustomError.mk
                 ("Invalid column index for header rename: " +:+ Js.showNumber colIndex) 400)
      else
        let oldHeader := Js.arrayGet (Grid.headers g) colIndex in
        modifyState (fun g => Grid.setHeaders (Js.arraySet (Grid.headers g) colIndex newName) g) ;;
        ret (ActionEvent.mk actionId timestamp ACTION_HEADER_RENAME (Target.mk (-1) colIndex)
               (HeaderData oldHeader newName)
               ("Header renamed from " +:+ Js.dquote +:+ Js.showString oldHeader +:+ Js.dquote
                  +:+ " to " +:+ Js.dquote +:+ newName +:+ Js.dquote),
             StateEvent.mk stateId timestamp STATE_HEADER_RENAME
               (CellData.mk (-1) colIndex newName))
  | SINGLE _ _ _ value _ =>
      ret (ActionEvent.mk actionId timestamp GENERAL_MESSAGE (Target.mk (-1) (-1))
             (MessageData value) ("Message: " +:+ value),
           StateEvent.mk stateId timestamp CELL_UPDATE (CellData.mk (-1) (-1) value))
  end.

Definition processUserMessage (o : Oracle.t) (message : string)
    (userId sessionId : option string) : M Result.t :=
  tryCatch
    (let timestamp := Oracle.newDate o in
     let userEvent :=
       UserEvent.mk (freshId "user" (Oracle.userNow o) (Oracle.userRandom o))
         message timestamp (orElse userId "anonymous") (orElse sessionId "default") in
     pushUserEvent userEvent ;;
     parsedCommand <- parseCommand message ;;
     events <- applyCommand o parsedCommand ;;
     pushActionEvent (fst events) ;;
     pushStateEvent (snd events) ;;
     ret (Result.mk userEvent (fst events) (snd events) parsedCommand))
    (fun error => throw (CustomError.mk "Failed to process user message" 500)).

(** [getActionEvents], [getStateEvents]: most recent first. *)
Definition getActionEvents (s : Store.t) : list ActionEvent.t := reverse (Store.actionEvents s).
Definition getStateEvents (s : Store.t) : list StateEvent.t := reverse (Store.stateEvents s).
Definition getSpreadsheetState (s : Store.t) : Grid.t := Store.spreadsheetState s.

(** The constructor with [initializeMockData]: 100 rows of 10 cells, one
    mock action event and one mock state event; [t1] and [t2] are the two
    readings of the clock. *)
Definition mockCells : list Cell.t :=
  row ← seqZ 0 100;
  col ← seqZ 0 10;
  [Cell.mk row col
     ("Row " +:+ Js.showNumber (row + 1) +:+ " Col " +:+ columnIndexToLetter col)
     defaultFormat].

Definition newStore (t1 t2 : Z) : Store.t :=
  Store.mk []
    [ActionEvent.mk "1" t1 UPDATE_CELL (Target.mk 0 0) (ValueData "Sample Data")
       "Updated cell A1"]
    [StateEvent.mk "1" t2 CELL_UPDATE (CellData.mk 0 0 "Sample Data")]
    (Grid.mk mockCells INITIAL_ROWS 26 (Some <$> generateColumnHeaders 26)).

(** Predicates used by the statements. *)

Fixpoint allChars (p : ascii -> bool) (s : string) : bool :=
  match s with
  | EmptyString => true
  | String c s' => p c && allChars p s'
  end.

Definition isLetter (c : ascii) : bool := Js.isUpper c || Js.isLower c.

(** A 7-bit text: every code unit is below 128. *)
Definition sevenBit (s : string) : bool := allChars (fun c => Js.charCode c <? 128) s.

(** The first cell that [findIndex] reports at a coordinate: the cell that
    the store reads and replaces there. *)
Definition cellAt (rowIndex col : Z) (g : Grid.t) : option Cell.t :=
  snd <$> list_find (fun c => Cell.row c = rowIndex /\ Cell.col c = col) (Grid.cells g).

Definition grid (s : Store.t) : Grid.t := Store.spreadsheetState s.

(** The parser and the command branch read and write the grid only; these
    are their runs on a store that holds nothing but the grid [g]. *)
Definition bare (g : Grid.t) : Store.t := Store.mk [] [] [] g.

Definition parseOn (g : Grid.t) (message : string) : CustomError.t + ParsedCommand :=
  snd (parseCommand message (bare g)).

Definition applyOn (o : Oracle.t) (c : ParsedCommand) (g : Grid.t)
    : Grid.t * (CustomError.t + ActionEvent.t * StateEvent.t) :=
  let r := applyCommand o c (bare g) in (grid (fst r), snd r).

Arguments parseOn : simpl never.
Arguments applyOn : simpl never.

Definition userEventOf (o : Oracle.t) (message : string)
    (userId sessionId : option string) : UserEvent.t :=
  UserEvent.mk (freshId "user" (Oracle.userNow o) (Oracle.userRandom o))
    message (Oracle.newDate o) (orElse userId "anonymous") (orElse sessionId "default").

Definition genericError : CustomError.t :=
  CustomError.mk "Failed to process user message" 500.

(** The store invariant: one header per column, and no more rows than the
    cap. The constructor establishes it. *)
Definition gridInv (g : Grid.t) : Prop :=
  Z.of_nat (length (Grid.headers g)) = Grid.columns g /\ Grid.rows g <= MAX_ROWS.

(** [g'] has at least the rows and columns of [g], and keeps the store
    invariant if [g] had it. *)
Definition extends (g g' : Grid.t) : Prop :=
  Grid.rows g <= Grid.rows g' /\ Grid.columns g <= Grid.columns g' /\
  (gridInv g -> gridInv g').

Definition withGrid (g : Grid.t) (s : Store.t) : Store.t :=
  Store.mk (Store.userEvents s) (Store.actionEvents s) (Store.stateEvents s) g.

(** The coordinates of the cells, in the order of the array; the grid holds
    at most one cell per coordinate when they are all different. *)
Definition coordinates (cells : list Cell.t) : list (Z * Z) :=
  (fun c => (Cell.row c, Cell.col c)) <$> cells.

Definition uniqueCells (g : Grid.t) : Prop := NoDup (coordinates (Grid.cells g)).

(** One request to the store, and the store after a sequence of them,
    whether they succeed or fail. *)
Module Request.
Record t : Type := mk {
  oracle : Oracle.t; message : string; userId : option string; sessionId : option string
}.
End Request.

Definition handle (s : Store.t) (r : Request.t) : Store.t :=
  fst (processUserMessage (Request.oracle r) (Request.message r)
         (Request.userId r) (Request.sessionId r) s).

Definition handleAll (s : Store.t) (rs : list Request.t) : Store.t := foldl handle s rs.

(** ** Further definitions: health counters *)

(** The [dataCounts] object of [getHealthStatus]: the lengths of the three
    logs and of the array of cells. *)
Module DataCounts.
Record t : Type := mk { userEvents : Z; actionEvents : Z; stateEvents : Z; cells : Z }.
End DataCounts.

Definition dataCounts (s : Store.t) : DataCounts.t :=
  DataCounts.mk (Z.of_nat (length (Store.userEvents s)))
    (Z.of_nat (length (Store.actionEvents s)))
    (Z.of_nat (length (Store.stateEvents s)))
    (Z.of_nat (length (Grid.cells (Store.spreadsheetState s)))).

Definition notSpace (c : ascii) : bool := negb (Js.isSpace c).

(** [g'] keeps every coordinate of [g] occupied and has at least as many
    cells. *)
Definition keepsCells (g g' : Grid.t) : Prop :=
  coordinates (Grid.cells g) ⊆ coordinates (Grid.cells g') /\
  (length (Grid.cells g) <= length (Grid.cells g'))%nat.


#[global] Instance format_eq_dec : EqDecision Format.t.
Proof. solve_decision. Defined.

#[global] Instance cell_eq_dec : EqDecision Cell.t.
Proof. solve_decision. Defined.

(** The text that [initializeMockData] puts in the cell at a coordinate. *)
Definition mockValue (rowIndex col : Z) : string :=
  "Row " +:+ Js.showNumber (rowIndex + 1) +:+ " Col " +:+ columnIndexToLetter col.


(** ** Further definitions: the HTTP boundary *)

(** A field of the JSON body of a request: absent, a JSON value that is no
    string (a number, a boolean, [null], an object, an array), or a string. *)
Inductive Field : Type := Missing | NotAString | Text (s : string).

(** The body of [POST /message]. [userId] and [sessionId] are strings when
    present, as the signature of [processUserMessage] types them. *)
Module Body.
Record t : Type := mk { message : Field; userId : option string; sessionId : option string }.
End Body.

(** The JSON documents that [sendMessage] and [errorHandler] send. *)
Inductive Reply : Type :=
| MessageRequired
    (* { success: false, error: 'Message is required and must be a string' } *)
| Processed (userEvent : UserEvent.t) (parsedCommand : ParsedCommand)
    (* { success: true, message: 'User event processed successfully', userEvent, parsedCommand } *)
| Failure (message : string) (stack : option string).
    (* { success: false, message, stack? } *)

Module Response.
Record t : Type := mk { status : Z; body : Reply }.
End Response.

(** [errorHandler]: the status of the error, or 500 when it has none (0 is
    falsy); the message is sent, with the stack [stack] of the error, only
    when [NODE_ENV] is ['development']. *)
Definition errorHandler (isDevelopment : bool) (stack : string) (err : CustomError.t)
    : Response.t :=
  let statusCode :=
    if CustomError.statusCode err =? 0 then 500 else CustomError.statusCode err in
  let message :=
    if String.eqb (CustomError.message err) "" then "Internal Server Error"
    else CustomError.message err in
  Response.mk statusCode
    (Failure (if isDevelopment then message else "Internal Server Error")
       (if isDevelopment then Some stack else None)).

(** The controller [sendMessage] with the error middleware that [next(error)]
    reaches: [!message || typeof message !== 'string'] answers 400 without
    calling the service; [res.json] answers with status 200. *)
Definition sendMessage (isDevelopment : bool) (stack : string) (o : Oracle.t)
    (body : Body.t) (s : Store.t) : Store.t * Response.t :=
  match Body.message body with
  | Text (String c rest) =>
      let message := String c rest in
      match processUserMessage o message (Body.userId body) (Body.sessionId body) s with
      | (s', inr result) =>
          (s', Response.mk 200
                 (Processed (Result.userEvent result) (Result.parsedCommand result)))
      | (s', inl error) => (s', errorHandler isDevelopment stack error)
      end
  | _ => (s, Response.mk 400 MessageRequired)
  end.


(** ** Further definitions: what a regular expression matches *)

(** The loop of [Regex.run] on [Star r1], named. *)
Definition starIter (r1 : regex) (total : nat) (k : cont)
    : nat -> string -> captures -> option captures :=
  fix iter (fuel : nat) (s : string) (caps : captures) : option captures :=
    match fuel with
    | O => k s caps
    | S fuel' =>
        match run r1 total s caps
                (fun s' caps' =>
                   if (String.length s' <? String.length s)%nat
                   then iter fuel' s' caps' else None) with
        | Some res => Some res
        | None => k s caps
        end
    end.

(** [matches r total w rest caps caps']: in an input of [total] characters,
    [r] can match the text [w] when [rest] follows it, turning the groups
    [caps] into [caps']. *)
Inductive repeats (R : string -> string -> captures -> captures -> Prop)
    : string -> string -> captures -> captures -> Prop :=
| repeats_nil rest caps : repeats R "" rest caps caps
| repeats_cons w1 w2 rest caps caps1 caps2 :
    R w1 (w2 +:+ rest) caps caps1 -> repeats R w2 rest caps1 caps2 ->
    repeats R (w1 +:+ w2) rest caps caps2.

Fixpoint matches (r : regex) (total : nat) (w rest : string) (caps caps' : captures)
    {struct r} : Prop :=
  match r with
  | Eps => w = "" /\ caps' = caps
  | Chr p => (exists c, w = String c "" /\ p c = true) /\ caps' = caps
  | Seq r1 r2 =>
      exists w1 w2 caps1,
        w = w1 +:+ w2 /\ matches r1 total w1 (w2 +:+ rest) caps caps1 /\
        matches r2 total w2 rest caps1 caps'
  | Alt r1 r2 => matches r1 total w rest caps caps' \/ matches r2 total w rest caps caps'
  | Star r1 => repeats (matches r1 total) w rest caps caps'
  | Cap i r1 => exists caps1, matches r1 total w rest caps caps1 /\ caps' = <[i := w]> caps1
  | Bol => w = "" /\ String.length rest = total /\ caps' = caps
  | Eol => w = "" /\ rest = "" /\ caps' = caps
  end.

Definition isUpperOrDigit (c : ascii) : bool := Js.isUpper c || Js.isDigit c.

(** A token: a non-empty word without white space. *)
Definition isToken (t : string) : Prop := t <> "" /\ allChars notSpace t = true.

(** Every cell lies in a column of the grid, from column 0 on, and in no
    row above the one before the first (the range loop writes row index -1
    for a range that starts at row 0). *)
Definition cellsWithinColumns (g : Grid.t) : Prop :=
  Forall (fun c => 0 <= Cell.col c < Grid.columns g /\ -1 <= Cell.row c) (Grid.cells g).

(** * Properties *)

(** ** The column codec *)

Section Codec.

Lemma charCode_range c : 0 <= Js.charCode c < 256.
Proof.
  unfold Js.charCode. pose proof (N_ascii_bounded c). lia.
Qed.

Lemma fromCharCode_charCode c : Js.fromCharCode (Js.charCode c) = c.
Proof.
  unfold Js.fromCharCode, Js.charCode. rewrite N2Z.id. apply ascii_N_embedding.
Qed.

Lemma charCode_fromCharCode n : 0 <= n < 256 -> Js.charCode (Js.fromCharCode n) = n.
Proof.
  intros Hn. unfold Js.fromCharCode, Js.charCode.
  rewrite N_ascii_embedding by lia. lia.
Qed.

Lemma isUpper_spec c : Js.isUpper c = true <-> 65 <= Js.charCode c <= 90.
Proof. unfold Js.isUpper. rewrite andb_true_iff, !Z.leb_le. tauto. Qed.

Lemma isLower_spec c : Js.isLower c = true <-> 97 <= Js.charCode c <= 122.
Proof. unfold Js.isLower. rewrite andb_true_iff, !Z.leb_le. tauto. Qed.

Lemma upperChar_letter c : isLetter c = true -> Js.isUpper (Js.upperChar c) = true.
Proof.
  unfold isLetter, Js.upperChar. intros H.
  destruct (Js.isLower c) eqn:Hl.
  - apply isLower_spec in Hl. apply isUpper_spec.
    rewrite charCode_fromCharCode; lia.
  - rewrite orb_false_r in H. exact H.
Qed.

Lemma string_app_cons d s t : String d s +:+ t = String d (s +:+ t).
Proof. reflexivity. Qed.

(** Below the sharp s [toUpperCase] is the folding of a to z. *)
Lemma toUpperCaseChar_low c :
  Js.charCode c < 223 -> Js.toUpperCaseChar c = String (Js.upperChar c) "".
Proof.
  intros Hc. unfold Js.toUpperCaseChar. cbv zeta.
  destruct (Z.eqb_spec (Js.charCode c) 223); [lia|].
  destruct (Z.leb_spec 224 (Js.charCode c)); [lia|]. done.
Qed.

Lemma toUpperCase_cons c s :
  Js.charCode c < 223 ->
  Js.toUpperCase (String c s) = String (Js.upperChar c) (Js.toUpperCase s).
Proof.
  intros Hc. cbn [Js.toUpperCase]. by rewrite toUpperCaseChar_low.
Qed.

Lemma isLetter_low c : isLetter c = true -> Js.charCode c < 223.
Proof.
  unfold isLetter. rewrite orb_true_iff, isUpper_spec, isLower_spec. lia.
Qed.

Lemma toUpperCase_letters s :
  allChars isLetter s = true -> allChars Js.isUpper (Js.toUpperCase s) = true.
Proof.
  induction s as [|c s IH]; [done|]. cbn [allChars].
  rewrite andb_true_iff. intros [Hc Hs].
  rewrite toUpperCase_cons by (by apply isLetter_low). cbn [allChars].
  rewrite andb_true_iff. split; [by apply upperChar_letter | by apply IH].
Qed.

Lemma letterToColumnIndexLoop_snoc s c a :
  letterToColumnIndexLoop (s +:+ String c "") a
  = letterToColumnIndexLoop s a * 26 + (Js.charCode c - 64).
Proof.
  revert a. induction s as [|d s IH]; intros a; [done|].
  rewrite string_app_cons. simpl. apply IH.
Qed.

Lemma letterToColumnIndexLoop_nonneg s a :
  allChars Js.isUpper s = true -> 0 <= a -> a <= letterToColumnIndexLoop s a.
Proof.
  revert a. induction s as [|c s IH]; intros a; simpl; [lia|].
  rewrite andb_true_iff. intros [Hc Hs] Ha. apply isUpper_spec in Hc.
  etrans; [|apply IH; [done | lia]]. lia.
Qed.

(** Snoc induction on strings. *)
Lemma string_snoc_ind (P : string -> Prop) :
  P "" -> (forall s c, P s -> P (s +:+ String c "")) -> forall s, P s.
Proof.
  intros Hnil Hsnoc s.
  rewrite <- (string_of_list_ascii_of_string s).
  induction (list_ascii_of_string s) as [|c l IH] using rev_ind; [done|].
  replace (string_of_list_ascii (l ++ [c]))
    with (string_of_list_ascii l +:+ String c "").
  - by apply Hsnoc.
  - clear. induction l as [|d l IH]; [done|].
    simpl. by rewrite string_app_cons, IH.
Qed.

Lemma allChars_snoc p s c :
  allChars p (s +:+ String c "") = allChars p s && p c.
Proof.
  induction s as [|d s IH]; [simpl; by rewrite andb_true_r|].
  rewrite string_app_cons. simpl. by rewrite IH, andb_assoc.
Qed.

Lemma string_app_snoc s c r : (s +:+ String c "") +:+ r = s +:+ String c r.
Proof.
  induction s as [|d s IH]; [done|]. by rewrite !string_app_cons, IH.
Qed.

(** The loop runs to its end within any fuel [n] with [index + 1 < 2 ^ n];
    decoding what it produced gives back [index + 1] on top of [result]. *)
Lemma decode_loop fuel index result :
  -1 <= index -> index + 1 < 2 ^ Z.of_nat fuel ->
  letterToColumnIndexLoop (columnIndexToLetterLoop fuel index result) 0
  = letterToColumnIndexLoop result (index + 1).
Proof.
  revert index result. induction fuel as [|n IH]; intros index result Hlo Hhi.
  - simpl in *. by replace index with (-1) by lia.
  - simpl columnIndexToLetterLoop. destruct (0 <=? index) eqn:Hpos.
    + apply Z.leb_le in Hpos.
      rewrite Nat2Z.inj_succ, Z.pow_succ_r in Hhi by lia.
      rewrite IH.
      * simpl. f_equal. rewrite charCode_fromCharCode.
        -- rewrite Z.rem_mod_nonneg by lia.
           pose proof (Z.div_mod index 26). lia.
        -- pose proof (Z.rem_bound_pos index 26). lia.
      * pose proof (Z.div_pos index 26). lia.
      * assert (index / 26 <= index / 2) by (apply Z.div_le_compat_l; lia).
        assert (index / 2 < 2 ^ Z.of_nat n) by (apply Z.div_lt_upper_bound; lia).
        lia.
    + apply Z.leb_gt in Hpos. by replace index with (-1) by lia.
Qed.

Lemma loopBound_enough index : 0 <= index -> index + 1 < 2 ^ Z.of_nat (loopBound index).
Proof.
  intros H. unfold loopBound.
  rewrite Nat2Z.inj_succ, Z2Nat.id by apply Z.log2_nonneg.
  apply Z.log2_spec. lia.
Qed.

(** Fuel does not show in the result: with any fuel above the bound the
    loop returns what it returns at the bound, so the [while] loop of the
    source terminates with that string. *)
Lemma columnIndexToLetterLoop_fuel n index result :
  index + 1 < 2 ^ Z.of_nat n ->
  forall m, (n <= m)%nat ->
  columnIndexToLetterLoop m index result = columnIndexToLetterLoop n index result.
Proof.
  revert index result. induction n as [|n IH]; intros index result Hhi m Hm.
  - simpl in Hhi. destruct m; simpl; [done|].
    destruct (0 <=? index) eqn:E; [apply Z.leb_le in E; lia | done].
  - destruct m as [|m]; [lia|]. simpl.
    destruct (0 <=? index) eqn:E; [|done]. apply Z.leb_le in E.
    rewrite Nat2Z.inj_succ, Z.pow_succ_r in Hhi by lia.
    apply IH; [|lia].
    assert (index / 26 <= index / 2) by (apply Z.div_le_compat_l; lia).
    assert (index / 2 < 2 ^ Z.of_nat n) by (apply Z.div_lt_upper_bound; lia).
    lia.
Qed.

Lemma letterToColumnIndex_columnIndexToLetter index :
  0 <= index -> letterToColumnIndex (columnIndexToLetter index) = index.
Proof.
  intros H. unfold letterToColumnIndex, columnIndexToLetter.
  rewrite decode_loop; [simpl; lia | lia | by apply loopBound_enough].
Qed.

(** Encoding the value of a string of capitals writes that string in
    front of [result]. *)
Lemma encode_loop s :
  allChars Js.isUpper s = true ->
  forall fuel result,
    letterToColumnIndexLoop s 0 < 2 ^ Z.of_nat fuel ->
    columnIndexToLetterLoop fuel (letterToColumnIndexLoop s 0 - 1) result = s +:+ result.
Proof.
  induction s as [|s c IH] using string_snoc_ind; intros Hup fuel result Hfuel.
  - simpl. by destruct fuel.
  - rewrite allChars_snoc, andb_true_iff in Hup. destruct Hup as [Hs Hc].
    apply isUpper_spec in Hc.
    rewrite letterToColumnIndexLoop_snoc in *.
    pose proof (letterToColumnIndexLoop_nonneg s 0 Hs ltac:(lia)) as Hv.
    set (v := letterToColumnIndexLoop s 0) in *.
    set (d := Js.charCode c - 64) in *.
    destruct fuel as [|n]; [simpl in Hfuel; lia|].
    rewrite Nat2Z.inj_succ, Z.pow_succ_r in Hfuel by lia.
    simpl columnIndexToLetterLoop.
    replace (0 <=? v * 26 + d - 1) with true by (symmetry; apply Z.leb_le; lia).
    assert (Hq : (v * 26 + d - 1) / 26 = v).
    { symmetry. apply (Z.div_unique _ _ _ (d - 1)); lia. }
    assert (Hr : Z.rem (v * 26 + d - 1) 26 = d - 1).
    { rewrite Z.rem_mod_nonneg by lia. symmetry.
      apply (Z.mod_unique _ _ v); lia. }
    rewrite Hq, Hr.
    replace (65 + (d - 1)) with (Js.charCode c) by (unfold d; lia).
    rewrite fromCharCode_charCode, IH by (done || lia).
    by rewrite string_app_snoc.
Qed.

Lemma string_app_empty s : s +:+ "" = s.
Proof. induction s as [|c s IH]; [done | by rewrite string_app_cons, IH]. Qed.

Lemma columnIndexToLetter_letterToColumnIndex s :
  allChars Js.isUpper s = true ->
  columnIndexToLetter (letterToColumnIndex s) = s.
Proof.
  intros Hup. unfold columnIndexToLetter, letterToColumnIndex.
  pose proof (letterToColumnIndexLoop_nonneg s 0 Hup ltac:(lia)) as Hv.
  destruct (decide (letterToColumnIndexLoop s 0 = 0)) as [Hz|Hnz].
  - rewrite (encode_loop s Hup) by (rewrite Hz; apply Z.pow_pos_nonneg; lia).
    apply string_app_empty.
  - rewrite (encode_loop s Hup).
    + apply string_app_empty.
    + pose proof (loopBound_enough (letterToColumnIndexLoop s 0 - 1) ltac:(lia)). lia.
Qed.

(** [parseColumn] is the codec with the checks: on letters of either case
    it is [letterToColumnIndex] after upper-casing, cut off above column ZZ
    (index 701). *)
Lemma parseColumnLoop_upper s a :
  allChars Js.isUpper s = true ->
  parseColumnLoop s a = Some (letterToColumnIndexLoop s a).
Proof.
  revert a. induction s as [|c s IH]; intros a; simpl; [done|].
  rewrite andb_true_iff. intros [Hc Hs]. apply isUpper_spec in Hc.
  replace (Js.charCode c <? 65) with false by (symmetry; apply Z.ltb_ge; lia).
  replace (90 <? Js.charCode c) with false by (symmetry; apply Z.ltb_ge; lia).
  simpl. by apply IH.
Qed.

Lemma parseColumn_letters L :
  allChars isLetter L = true ->
  parseColumn L =
  if 701 <? letterToColumnIndex (Js.toUpperCase L) then -1
  else letterToColumnIndex (Js.toUpperCase L).
Proof.
  intros HL. unfold parseColumn, letterToColumnIndex.
  rewrite parseColumnLoop_upper by (by apply toUpperCase_letters).
  destruct (Z.ltb_spec 702 (letterToColumnIndexLoop (Js.toUpperCase L) 0));
    destruct (Z.ltb_spec 701 (letterToColumnIndexLoop (Js.toUpperCase L) 0 - 1));
    (done || lia).
Qed.

Lemma columnIndexToLetter_parseColumn L :
  allChars isLetter L = true -> parseColumn L <> -1 ->
  columnIndexToLetter (parseColumn L) = Js.toUpperCase L.
Proof.
  intros HL. rewrite parseColumn_letters by done.
  destruct (701 <? _); [done|]. intros _.
  apply columnIndexToLetter_letterToColumnIndex. by apply toUpperCase_letters.
Qed.

Lemma allChars_loop fuel index result :
  allChars Js.isUpper result = true ->
  allChars Js.isUpper (columnIndexToLetterLoop fuel index result) = true.
Proof.
  revert index result. induction fuel as [|n IH]; intros index result Hres; simpl; [done|].
  destruct (0 <=? index) eqn:Hpos; [|done]. apply Z.leb_le in Hpos.
  apply IH. simpl. rewrite Hres, andb_true_r. apply isUpper_spec.
  pose proof (Z.rem_bound_pos index 26).
  rewrite charCode_fromCharCode; lia.
Qed.

Lemma columnIndexToLetter_upper index :
  allChars Js.isUpper (columnIndexToLetter index) = true.
Proof. by apply allChars_loop. Qed.

Lemma toUpperCase_upper t : allChars Js.isUpper t = true -> Js.toUpperCase t = t.
Proof.
  induction t as [|c t IH]; [done|]. cbn [allChars].
  rewrite andb_true_iff. intros [Hc Ht]. apply isUpper_spec in Hc.
  rewrite toUpperCase_cons, IH by (done || lia). f_equal.
  unfold Js.upperChar. destruct (Js.isLower c) eqn:Hl; [apply isLower_spec in Hl; lia | done].
Qed.

Lemma parseColumn_columnIndexToLetter i :
  0 <= i <= 701 -> parseColumn (columnIndexToLetter i) = i.
Proof.
  intros Hi. unfold parseColumn. cbv zeta.
  rewrite (toUpperCase_upper _ (columnIndexToLetter_upper i)).
  rewrite parseColumnLoop_upper by apply columnIndexToLetter_upper.
  pose proof (letterToColumnIndex_columnIndexToLetter i ltac:(lia)) as Hback.
  unfold letterToColumnIndex in Hback.
  destruct (Z.ltb_spec 702 (letterToColumnIndexLoop (columnIndexToLetter i) 0)); lia.
Qed.

End Codec.

(** ** The structure of a call *)

Section Structure.

Lemma parseCommand_eq message s :
  parseCommand message s = (s, parseOn (grid s) message).
Proof.
  unfold parseOn, parseCommand.
  destruct (length _ <? 2)%nat; [done|].
  destruct (exec renamePattern _); [|destruct (exec rangePattern _)].
  - unfold bind, getState, bare, grid; simpl.
    by destruct (_ || _).
  - by destruct (exec endPattern _).
  - destruct (exec cellPattern _); [|done].
    by destruct (_ <? 1).
Qed.

Lemma applyCommand_eq o c s :
  applyCommand o c s
  = (withGrid (fst (applyOn o c (grid s))) s, snd (applyOn o c (grid s))).
Proof.
  destruct s as [us acts sts g]. unfold applyOn, withGrid, grid, bare. simpl.
  destruct c as [cell [col|] [row|] value raw | sc ec c1 r1 c2 r2 value raw | col value raw];
    simpl; try done.
  - unfold bind, getState, modifyState. simpl.
    by destruct (rangeLoop _ _ _ _ _ _).
  - unfold bind, getState, modifyState. simpl.
    by destruct (_ || _).
Qed.

(** A failing command branch has not touched the grid. *)
Lemma applyOn_fails o c g g' e : applyOn o c g = (g', inl e) -> g' = g.
Proof.
  unfold applyOn, grid, bare.
  destruct c as [cell [col|] [row|] value raw | sc ec c1 r1 c2 r2 value raw | col value raw];
    simpl; try discriminate.
  - unfold bind, getState, modifyState. simpl.
    destruct (rangeLoop _ _ _ _ _ _). discriminate.
  - unfold bind, getState, modifyState. simpl.
    destruct (_ || _); simpl; [by intros [= <- _] | discriminate].
Qed.

(** [processUserMessage] in one equation: the user event is logged first;
    then either the parser or the command branch fails, and the caller
    gets the generic error, or the grid is updated and one action event
    and one state event are appended. *)
Lemma processUserMessage_eq o message userId sessionId s :
  processUserMessage o message userId sessionId s =
  let userEvent := userEventOf o message userId sessionId in
  let logged g :=
    Store.mk (Store.userEvents s ++ [userEvent]) (Store.actionEvents s)
      (Store.stateEvents s) g in
  match parseOn (grid s) message with
  | inl _ => (logged (grid s), inl genericError)
  | inr c =>
      match applyOn o c (grid s) with
      | (g', inl _) => (logged g', inl genericError)
      | (g', inr (actionEvent, stateEvent)) =>
          (Store.mk (Store.userEvents s ++ [userEvent])
             (Store.actionEvents s ++ [actionEvent])
             (Store.stateEvents s ++ [stateEvent]) g',
           inr (Result.mk userEvent actionEvent stateEvent c))
      end
  end.
Proof.
  unfold processUserMessage, tryCatch, bind at 1. unfold pushUserEvent at 1.
  unfold bind at 1. rewrite parseCommand_eq. unfold grid at 1. simpl.
  fold (userEventOf o message userId sessionId).
  destruct (parseOn _ _) as [e|c]; [done|].
  unfold bind at 1. rewrite applyCommand_eq. unfold applyOn, withGrid, grid. simpl.
  destruct (applyCommand o c (bare (Store.spreadsheetState s)))
    as [s2 [e|[actionEvent stateEvent]]]; done.
Qed.

End Structure.

(** ** The grid operations *)

Section GridOperations.

Implicit Types (g : Grid.t) (cells : list Cell.t) (cellData : Cell.t).

Lemma length_generateColumnHeaders n :
  0 <= n -> Z.of_nat (length (generateColumnHeaders n)) = n.
Proof.
  intros H. unfold generateColumnHeaders. rewrite length_fmap, length_seqZ. lia.
Qed.

Ltac autoExpand_cases :=
  unfold autoExpand; cbv zeta;
  repeat match goal with
         | |- context [?a >? ?b] => destruct (Z.gtb_spec a b)
         end;
  simpl in *.

Lemma autoExpand_rows row col g :
  Grid.rows (autoExpand row col g) = Z.max (Grid.rows g) (Z.min row MAX_ROWS).
Proof.
  autoExpand_cases; lia.
Qed.

Lemma autoExpand_columns row col g :
  Grid.columns (autoExpand row col g) = Z.max (Grid.columns g) (col + 1).
Proof.
  autoExpand_cases; lia.
Qed.

Lemma autoExpand_cells row col g : Grid.cells (autoExpand row col g) = Grid.cells g.
Proof.
  by autoExpand_cases.
Qed.

Lemma autoExpand_headers row col g :
  Z.of_nat (length (Grid.headers g)) = Grid.columns g ->
  Z.of_nat (length (Grid.headers (autoExpand row col g)))
  = Grid.columns (autoExpand row col g).
Proof.
  intros Hlen. autoExpand_cases; try done;
    rewrite length_fmap, length_generateColumnHeaders; lia.
Qed.

Lemma extends_refl g : extends g g.
Proof. unfold extends. split; [lia | split; [lia | done]]. Qed.

Lemma extends_trans g1 g2 g3 : extends g1 g2 -> extends g2 g3 -> extends g1 g3.
Proof. unfold extends. intros (?&?&?) (?&?&?). split; [lia | split; [lia | auto]]. Qed.

Lemma extends_autoExpand row col g : extends g (autoExpand row col g).
Proof.
  unfold extends, gridInv.
  rewrite autoExpand_rows, autoExpand_columns.
  split; [lia | split; [lia | intros [Hlen Hcap]; split]].
  - rewrite <- autoExpand_columns with (row := row). by apply autoExpand_headers.
  - unfold MAX_ROWS in *. lia.
Qed.

Lemma extends_setCells cells g : extends g (Grid.setCells cells g).
Proof. unfold extends, gridInv. simpl. split; [lia | split; [lia | done]]. Qed.

Lemma foldl_preserves {A B} (Q : A -> Prop) (f : A -> B -> A) (l : list B) (a : A) :
  Q a -> (forall a y, y ∈ l -> Q a -> Q (f a y)) -> Q (foldl f a l).
Proof.
  revert a. induction l as [|x l IH]; intros a Ha Hf; simpl; [done|].
  apply IH.
  - apply Hf; [left | done].
  - intros a' y Hy. apply Hf. by right.
Qed.

Lemma foldl_establishes {A B} (Q : A -> Prop) (f : A -> B -> A) (l : list B) (a : A) x :
  x ∈ l -> (forall a, Q (f a x)) -> (forall a y, Q a -> Q (f a y)) -> Q (foldl f a l).
Proof.
  revert a. induction l as [|y l IH]; intros a Hx Hset Hkeep; simpl.
  - by apply elem_of_nil in Hx.
  - apply elem_of_cons in Hx as [->|Hx].
    + apply foldl_preserves; [apply Hset | intros; by apply Hkeep].
    + by apply IH.
Qed.

Lemma rangeLoop_preserves (Q : Grid.t * list Cell.t -> Prop) value r1 r2 c1 c2 acc :
  Q acc ->
  (forall row col a, row ∈ fromTo r1 r2 -> col ∈ fromTo c1 c2 -> Q a ->
                     Q (rangeStep value row col a)) ->
  Q (rangeLoop value r1 r2 c1 c2 acc).
Proof.
  intros Hacc Hstep. unfold rangeLoop.
  apply foldl_preserves; [done|]. intros a row Hrow Ha.
  apply foldl_preserves; [done|]. intros a' col Hcol Ha'. by apply Hstep.
Qed.

Lemma rangeLoop_establishes (Q : Grid.t * list Cell.t -> Prop)
    value r1 r2 c1 c2 acc row col :
  row ∈ fromTo r1 r2 -> col ∈ fromTo c1 c2 ->
  (forall a, Q (rangeStep value row col a)) ->
  (forall row' col' a, Q a -> Q (rangeStep value row' col' a)) ->
  Q (rangeLoop value r1 r2 c1 c2 acc).
Proof.
  intros Hrow Hcol Hset Hkeep. unfold rangeLoop.
  apply (foldl_establishes Q _ _ _ row); [done | |].
  - intros a. apply (foldl_establishes Q _ _ _ col); [done | done |].
    intros; by apply Hkeep.
  - intros a row' Ha. apply foldl_preserves; [done|]. intros; by apply Hkeep.
Qed.

Lemma extends_rangeStep value row col acc :
  extends (fst acc) (fst (rangeStep value row col acc)).
Proof.
  unfold rangeStep. simpl.
  eapply extends_trans; [apply extends_autoExpand | apply extends_setCells].
Qed.

Lemma extends_rangeLoop value r1 r2 c1 c2 acc :
  extends (fst acc) (fst (rangeLoop value r1 r2 c1 c2 acc)).
Proof.
  apply (rangeLoop_preserves (fun a => extends (fst acc) (fst a))).
  - apply extends_refl.
  - intros row col a _ _ Ha. eapply extends_trans; [exact Ha | apply extends_rangeStep].
Qed.

Lemma length_arraySet_inside {A} (a : list (option A)) i (v : A) :
  0 <= i < Z.of_nat (length a) -> length (Js.arraySet a i v) = length a.
Proof.
  intros Hi. unfold Js.arraySet.
  destruct (Nat.ltb_spec (Z.to_nat i) (length a)); [apply length_insert | lia].
Qed.

(** Whatever the command, and whether its branch succeeds or fails. *)
Lemma extends_applyOn o c g : extends g (fst (applyOn o c g)).
Proof.
  unfold applyOn, grid, bare.
  destruct c as [cell [col|] [row|] value raw | sc ec c1 r1 c2 r2 value raw | col value raw];
    simpl; try apply extends_refl.
  - eapply extends_trans; [apply extends_autoExpand | apply extends_setCells].
  - unfold bind, getState, modifyState. simpl.
    pose proof (extends_rangeLoop value r1 r2 c1 c2 (g, [])) as H.
    destruct (rangeLoop _ _ _ _ _ _) as [g' updated]. exact H.
  - unfold bind, getState, modifyState. simpl.
    destruct (col <? 0) eqn:Hneg; simpl; [apply extends_refl|].
    destruct (Z.geb_spec col (Grid.columns g)); simpl; [apply extends_refl|].
    apply Z.ltb_ge in Hneg.
    unfold extends, gridInv. simpl.
    split; [lia | split; [lia | intros [Hlen Hcap]; split; [|done]]].
    rewrite length_arraySet_inside; lia.
Qed.

Lemma extends_handle s r : extends (grid s) (grid (handle s r)).
Proof.
  unfold handle. rewrite processUserMessage_eq. cbv zeta.
  destruct (parseOn _ _) as [e|c]; [apply extends_refl|].
  pose proof (extends_applyOn (Request.oracle r) c (grid s)) as H.
  destruct (applyOn _ _ _) as [g' [e|[actionEvent stateEvent]]]; exact H.
Qed.

Lemma extends_handleAll s rs : extends (grid s) (grid (handleAll s rs)).
Proof.
  unfold handleAll.
  apply (foldl_preserves (fun s' => extends (grid s) (grid s'))).
  - apply extends_refl.
  - intros s' r _ H. eapply extends_trans; [exact H | apply extends_handle].
Qed.

End GridOperations.

(** ** Cells *)

Section Cells.

Implicit Types (g : Grid.t) (cells : list Cell.t) (cellData : Cell.t).

Lemma upsertCell_nil cellData : upsertCell cellData [] = [cellData].
Proof. reflexivity. Qed.

Lemma upsertCell_cons cellData c cells :
  upsertCell cellData (c :: cells) =
  if decide (Cell.row c = Cell.row cellData /\ Cell.col c = Cell.col cellData)
  then cellData :: cells
  else c :: upsertCell cellData cells.
Proof.
  unfold upsertCell, findIndex. simpl list_find.
  destruct (decide _) as [Hc|Hc]; [done|].
  destruct (list_find _ cells) as [[i x]|]; simpl; [|done].
  replace (Z.of_nat (S i) >=? 0) with true by (symmetry; apply Z.geb_le; lia).
  replace (Z.of_nat i >=? 0) with true by (symmetry; apply Z.geb_le; lia).
  by rewrite !Nat2Z.id.
Qed.

Lemma list_find_cons_snd {A} (P : A -> Prop) `{!forall x, Decision (P x)} x (l : list A) :
  snd <$> list_find P (x :: l) = if decide (P x) then Some x else snd <$> list_find P l.
Proof.
  simpl. destruct (decide (P x)); [done|]. by destruct (list_find P l) as [[]|].
Qed.

Lemma find_upsert_same cellData cells :
  snd <$> list_find (fun c => Cell.row c = Cell.row cellData /\ Cell.col c = Cell.col cellData)
            (upsertCell cellData cells) = Some cellData.
Proof.
  induction cells as [|c cells IH].
  - rewrite upsertCell_nil, list_find_cons_snd. by rewrite decide_True.
  - rewrite upsertCell_cons. destruct (decide _) as [Hc|Hc].
    + rewrite list_find_cons_snd. by rewrite decide_True.
    + rewrite list_find_cons_snd. by rewrite decide_False.
Qed.

Lemma find_upsert_other cellData cells rowIndex col :
  ~ (Cell.row cellData = rowIndex /\ Cell.col cellData = col) ->
  snd <$> list_find (fun c => Cell.row c = rowIndex /\ Cell.col c = col)
            (upsertCell cellData cells)
  = snd <$> list_find (fun c => Cell.row c = rowIndex /\ Cell.col c = col) cells.
Proof.
  intros Hne. induction cells as [|c cells IH].
  - rewrite upsertCell_nil, list_find_cons_snd. by rewrite decide_False.
  - rewrite upsertCell_cons. destruct (decide _) as [[Hr Hc]|Hc].
    + rewrite !list_find_cons_snd.
      rewrite decide_False by done.
      rewrite decide_False; [done|]. rewrite Hr, Hc. done.
    + rewrite !list_find_cons_snd. destruct (decide _); [done | apply IH].
Qed.

Lemma elem_of_upsertCell cellData cells : cellData ∈ upsertCell cellData cells.
Proof.
  induction cells as [|c cells IH].
  - rewrite upsertCell_nil. left.
  - rewrite upsertCell_cons. destruct (decide _); [left | by right].
Qed.

(** After a step of the loop the cell of that step reads back. *)
Lemma cellAt_rangeStep_same value row col acc :
  cellAt (row - 1) col (fst (rangeStep value row col acc))
  = Some (Cell.mk (row - 1) col value defaultFormat).
Proof.
  unfold cellAt, rangeStep. simpl.
  apply (find_upsert_same (Cell.mk (row - 1) col value defaultFormat)).
Qed.

(** A cell holding [value] still reads back after any step of a loop that
    writes [value]. *)
Lemma cellAt_rangeStep_keep value rowIndex col row' col' acc :
  cellAt rowIndex col (fst acc) = Some (Cell.mk rowIndex col value defaultFormat) ->
  cellAt rowIndex col (fst (rangeStep value row' col' acc))
  = Some (Cell.mk rowIndex col value defaultFormat).
Proof.
  intros H.
  destruct (decide (row' - 1 = rowIndex /\ col' = col)) as [[<- <-]|Hne].
  - apply cellAt_rangeStep_same.
  - unfold cellAt, rangeStep in *. simpl.
    rewrite find_upsert_other by (simpl; exact Hne).
    by rewrite autoExpand_cells.
Qed.

Lemma elem_of_fromTo x lo hi : x ∈ fromTo lo hi <-> lo <= x <= hi.
Proof. unfold fromTo. rewrite elem_of_seqZ. lia. Qed.

Lemma cellAt_rangeLoop value r1 r2 c1 c2 acc row col :
  r1 <= row <= r2 -> c1 <= col <= c2 ->
  cellAt (row - 1) col (fst (rangeLoop value r1 r2 c1 c2 acc))
  = Some (Cell.mk (row - 1) col value defaultFormat).
Proof.
  intros Hrow Hcol.
  apply (rangeLoop_establishes
           (fun a => cellAt (row - 1) col (fst a)
                     = Some (Cell.mk (row - 1) col value defaultFormat))
           value r1 r2 c1 c2 acc row col).
  - by apply elem_of_fromTo.
  - by apply elem_of_fromTo.
  - intros a. apply cellAt_rangeStep_same.
  - intros row' col' a. apply cellAt_rangeStep_keep.
Qed.

Lemma rows_rangeStep value row col acc :
  Grid.rows (fst (rangeStep value row col acc))
  = Z.max (Grid.rows (fst acc)) (Z.min row MAX_ROWS).
Proof. unfold rangeStep. simpl. apply autoExpand_rows. Qed.

(** A loop whose last row is at or beyond the cap, over at least one
    column, leaves the row count at the larger of what it was and the
    cap. *)
Lemma rows_rangeLoop value r1 r2 c1 c2 acc :
  r1 <= r2 -> c1 <= c2 -> MAX_ROWS <= r2 ->
  Grid.rows (fst (rangeLoop value r1 r2 c1 c2 acc))
  = Z.max (Grid.rows (fst acc)) MAX_ROWS.
Proof.
  intros Hr Hc Hcap.
  assert (Hup : Grid.rows (fst acc) <= Grid.rows (fst (rangeLoop value r1 r2 c1 c2 acc))
                <= Z.max (Grid.rows (fst acc)) MAX_ROWS).
  { apply (rangeLoop_preserves
             (fun a => Grid.rows (fst acc) <= Grid.rows (fst a)
                       <= Z.max (Grid.rows (fst acc)) MAX_ROWS)); [lia|].
    intros row col a _ _ Ha. rewrite rows_rangeStep. lia. }
  assert (Hlo : MAX_ROWS <= Grid.rows (fst (rangeLoop value r1 r2 c1 c2 acc))).
  { apply (rangeLoop_establishes (fun a => MAX_ROWS <= Grid.rows (fst a))
             value r1 r2 c1 c2 acc r2 c1).
    - apply elem_of_fromTo. lia.
    - apply elem_of_fromTo. lia.
    - intros a. rewrite rows_rangeStep. lia.
    - intros row' col' a Ha. rewrite rows_rangeStep. lia. }
  lia.
Qed.

Lemma length_rangeLoop value r1 r2 c1 c2 acc :
  length (snd (rangeLoop value r1 r2 c1 c2 acc))
  = (length (snd acc) + length (fromTo r1 r2) * length (fromTo c1 c2))%nat.
Proof.
  unfold rangeLoop.
  assert (Hinner : forall row cols a,
             length (snd (foldl (fun a col => rangeStep value row col a) a cols))
             = (length (snd a) + length cols)%nat).
  { intros row cols. induction cols as [|col cols IH]; intros a; simpl; [lia|].
    rewrite IH. simpl. rewrite length_app. simpl. lia. }
  revert acc. induction (fromTo r1 r2) as [|row rows IH]; intros acc; simpl; [lia|].
  rewrite IH, Hinner. lia.
Qed.

(** *** One cell per coordinate *)

Lemma coordinates_upsertCell cellData cells k :
  k ∈ coordinates (upsertCell cellData cells) ->
  k ∈ coordinates cells \/ k = (Cell.row cellData, Cell.col cellData).
Proof.
  unfold coordinates. induction cells as [|c cells IH].
  - rewrite upsertCell_nil. simpl. rewrite list_elem_of_singleton. auto.
  - rewrite upsertCell_cons. destruct (decide _) as [[Hr Hc]|Hne]; simpl.
    + rewrite !elem_of_cons. intros [->|Hk]; auto.
    + rewrite !elem_of_cons. intros [->|Hk]; [auto|].
      destruct (IH Hk); auto.
Qed.

Lemma NoDup_upsertCell cellData cells :
  NoDup (coordinates cells) -> NoDup (coordinates (upsertCell cellData cells)).
Proof.
  induction cells as [|c cells IH]; intros Hnd.
  - rewrite upsertCell_nil. apply NoDup_singleton.
  - rewrite upsertCell_cons. unfold coordinates in *. simpl in Hnd.
    apply NoDup_cons in Hnd as [Hc Hnd].
    destruct (decide _) as [[Hr Hcol]|Hne]; simpl.
    + apply NoDup_cons. split; [|done]. by rewrite <- Hr, <- Hcol.
    + apply NoDup_cons. split; [|by apply IH].
      intros Hin. apply coordinates_upsertCell in Hin as [Hin|Heq]; [done|].
      apply Hne. by injection Heq.
Qed.

Lemma uniqueCells_rangeLoop value r1 r2 c1 c2 acc :
  uniqueCells (fst acc) -> uniqueCells (fst (rangeLoop value r1 r2 c1 c2 acc)).
Proof.
  intros H. apply (rangeLoop_preserves (fun a => uniqueCells (fst a))); [done|].
  intros row col a _ _ Ha. unfold uniqueCells, rangeStep in *. simpl.
  apply NoDup_upsertCell. by rewrite autoExpand_cells.
Qed.

Lemma uniqueCells_applyOn o c g : uniqueCells g -> uniqueCells (fst (applyOn o c g)).
Proof.
  intros H. unfold applyOn, grid, bare.
  destruct c as [cell [col|] [row|] value raw | sc ec c1 r1 c2 r2 value raw | col value raw];
    simpl; try done.
  - unfold uniqueCells. simpl. apply NoDup_upsertCell. by rewrite autoExpand_cells.
  - unfold bind, getState, modifyState. simpl.
    pose proof (uniqueCells_rangeLoop value r1 r2 c1 c2 (g, []) H) as Hloop.
    by destruct (rangeLoop _ _ _ _ _ _) as [g' updated].
  - unfold bind, getState, modifyState. simpl. by destruct (_ || _).
Qed.

Lemma uniqueCells_handle s r : uniqueCells (grid s) -> uniqueCells (grid (handle s r)).
Proof.
  intros H. unfold handle. rewrite processUserMessage_eq. cbv zeta.
  destruct (parseOn _ _) as [e|c]; [done|].
  pose proof (uniqueCells_applyOn (Request.oracle r) c (grid s) H) as Happly.
  by destruct (applyOn _ _ _) as [g' [e|[actionEvent stateEvent]]].
Qed.

Lemma uniqueCells_handleAll s rs :
  uniqueCells (grid s) -> uniqueCells (grid (handleAll s rs)).
Proof.
  intros H. unfold handleAll.
  apply (foldl_preserves (fun s' => uniqueCells (grid s'))); [done|].
  intros s' r _. apply uniqueCells_handle.
Qed.

(** With one cell per coordinate, the cell that [cellAt] reports is the
    only cell of the array at that coordinate. *)
Lemma cellAt_unique g rowIndex col x c :
  uniqueCells g -> cellAt rowIndex col g = Some x ->
  c ∈ Grid.cells g -> Cell.row c = rowIndex -> Cell.col c = col -> c = x.
Proof.
  unfold uniqueCells, cellAt, coordinates.
  induction (Grid.cells g) as [|y l IH]; intros Hnd Hfind Hin Hr Hc.
  - by apply elem_of_nil in Hin.
  - simpl in Hnd. apply NoDup_cons in Hnd as [Hy Hnd].
    rewrite list_find_cons_snd in Hfind.
    apply elem_of_cons in Hin as [->|Hin].
    + rewrite decide_True in Hfind by done. by injection Hfind.
    + destruct (decide _) as [[Hyr Hyc]|Hne].
      * exfalso. apply Hy. rewrite Hyr, Hyc, <- Hr, <- Hc.
        by apply (list_elem_of_fmap_2 (fun c => (Cell.row c, Cell.col c))).
      * by apply IH.
Qed.

End Cells.

(** ** Calls by the shape of the parsed command *)

Section Branches.

Lemma applyOn_single o cell col row value raw g :
  applyOn o (SINGLE cell (Some col) (Some row) value raw) g =
  (let g1 := autoExpand row col g in
   Grid.setCells (upsertCell (Cell.mk (row - 1) col value defaultFormat) (Grid.cells g1)) g1,
   inr (ActionEvent.mk (freshId "action" (Oracle.actionNow o) (Oracle.actionRandom o))
          (Oracle.newDate o) UPDATE_CELL (Target.mk (row - 1) col) (ValueData value)
          ("Updated cell " +:+ Js.showString cell),
        StateEvent.mk (freshId "state" (Oracle.stateNow o) (Oracle.stateRandom o))
          (Oracle.newDate o) CELL_UPDATE (CellData.mk (row - 1) col value))).
Proof. reflexivity. Qed.

Lemma applyOn_range o sc ec c1 r1 c2 r2 value raw g :
  exists actionEvent stateEvent,
    applyOn o (RANGE sc ec c1 r1 c2 r2 value raw) g
    = (fst (rangeLoop value r1 r2 c1 c2 (g, [])), inr (actionEvent, stateEvent)) /\
    ActionEvent.action actionEvent = UPDATE_CELL /\
    ActionEvent.data actionEvent
    = RangeData value (Js.showString sc +:+ "-" +:+ Js.showString ec)
        (Z.of_nat (length (snd (rangeLoop value r1 r2 c1 c2 (g, []))))) /\
    StateEvent.cellData stateEvent = CellData.mk r1 c1 value.
Proof.
  unfold applyOn, applyCommand, bind, getState, modifyState, bare, grid. simpl.
  destruct (rangeLoop value r1 r2 c1 c2 (g, [])) as [g' updated]. simpl.
  eexists _, _. split; [reflexivity|]. by simpl.
Qed.

Lemma applyOn_rename o col value raw g :
  0 <= col < Grid.columns g ->
  applyOn o (HEADER_RENAME col value raw) g =
  (Grid.setHeaders (Js.arraySet (Grid.headers g) col value) g,
   inr (ActionEvent.mk (freshId "action" (Oracle.actionNow o) (Oracle.actionRandom o))
          (Oracle.newDate o) ACTION_HEADER_RENAME (Target.mk (-1) col)
          (HeaderData (Js.arrayGet (Grid.headers g) col) value)
          ("Header renamed from " +:+ Js.dquote
             +:+ Js.showString (Js.arrayGet (Grid.headers g) col) +:+ Js.dquote
             +:+ " to " +:+ Js.dquote +:+ value +:+ Js.dquote),
        StateEvent.mk (freshId "state" (Oracle.stateNow o) (Oracle.stateRandom o))
          (Oracle.newDate o) STATE_HEADER_RENAME (CellData.mk (-1) col value))).
Proof.
  intros Hcol.
  unfold applyOn, applyCommand, bind, getState, modifyState, bare, grid. simpl.
  replace (col <? 0) with false by (symmetry; apply Z.ltb_ge; lia).
  replace (col >=? Grid.columns g) with false; [done|].
  symmetry. destruct (Z.geb_spec col (Grid.columns g)); [lia | done].
Qed.

(** The parser sets the column and the row of every SINGLE command, so
    the last branch of [processUserMessage], the general message, is
    never taken. *)
Lemma parseOn_single g message cell col row value raw :
  parseOn g message = inr (SINGLE cell col row value raw) -> is_Some col /\ is_Some row.
Proof.
  unfold parseOn, parseCommand.
  destruct (length _ <? 2)%nat; [discriminate|].
  destruct (exec renamePattern _); [|destruct (exec rangePattern _)].
  - unfold bind, getState, bare; simpl. destruct (_ || _); discriminate.
  - destruct (exec endPattern _); discriminate.
  - destruct (exec cellPattern _); [|discriminate].
    destruct (_ <? 1); [discriminate|]. simpl. intros [= <- <- <- <- <-]. eauto.
Qed.

(** Text of two or more tokens that matches none of the three patterns
    is a parse error. *)
Lemma unrecognised_text_is_rejected g message :
  let trimmedMessage := Js.trim message in
  let parts := Js.splitSpaces trimmedMessage in
  let cellOrRange := Js.toUpperCase (default "" (head parts)) in
  (2 <= length parts)%nat ->
  exec renamePattern trimmedMessage = None ->
  exec rangePattern cellOrRange = None ->
  exec cellPattern cellOrRange = None ->
  parseOn g message = inl (CustomError.mk "Invalid cell format. Use: A1, B5, etc." 400).
Proof.
  cbv zeta. intros Hparts Hrename Hrange Hcell.
  unfold parseOn, parseCommand. rewrite Hrename, Hrange, Hcell.
  by destruct (Nat.ltb_spec (length (Js.splitSpaces (Js.trim message))) 2); [lia|].
Qed.

Lemma general_branch_unreachable o message userId sessionId s s' res :
  processUserMessage o message userId sessionId s = (s', inr res) ->
  ActionEvent.action (Result.actionEvent res) <> GENERAL_MESSAGE.
Proof.
  rewrite processUserMessage_eq. cbv zeta.
  destruct (parseOn (grid s) message) as [e|c] eqn:Hparse; [discriminate|].
  destruct c as [cell col row value raw | sc ec c1 r1 c2 r2 value raw | col value raw].
  - destruct (parseOn_single _ _ _ _ _ _ _ Hparse) as [[c ->] [r ->]].
    rewrite applyOn_single. intros [= <- <-]. discriminate.
  - destruct (applyOn_range o sc ec c1 r1 c2 r2 value raw (grid s))
      as (actionEvent & stateEvent & -> & Hact & _).
    intros [= <- <-]. simpl. rewrite Hact. discriminate.
  - destruct (applyOn o _ _) as [g' [e|[actionEvent stateEvent]]] eqn:Happly;
      [discriminate|].
    intros [= <- <-]. simpl.
    unfold applyOn, applyCommand, bind, getState, modifyState, bare, grid in Happly.
    simpl in Happly. destruct (_ || _); simpl in Happly; [discriminate|].
    injection Happly as <- <- <-. discriminate.
Qed.

Lemma every_failure_is_generic o message userId sessionId s :
  match snd (processUserMessage o message userId sessionId s) with
  | inl e => e = genericError
  | inr _ => True
  end.
Proof.
  rewrite processUserMessage_eq. cbv zeta.
  destruct (parseOn _ _) as [e|c]; [done|].
  by destruct (applyOn _ _ _) as [g' [e|[actionEvent stateEvent]]].
Qed.

Lemma failed_parse o message userId sessionId s e :
  parseOn (grid s) message = inl e ->
  processUserMessage o message userId sessionId s
  = (Store.mk (Store.userEvents s ++ [userEventOf o message userId sessionId])
       (Store.actionEvents s) (Store.stateEvents s) (grid s),
     inl genericError).
Proof. intros H. rewrite processUserMessage_eq. cbv zeta. by rewrite H. Qed.

End Branches.

(** ** Arrays with holes *)

Section Arrays.

Context {A : Type}.
Implicit Types (a : list (option A)) (v : A).

Lemma arrayGet_arraySet_same a i v :
  0 <= i -> Js.arrayGet (Js.arraySet a i v) i = Some v.
Proof.
  intros Hi. unfold Js.arrayGet, Js.arraySet.
  replace (i <? 0) with false by (symmetry; apply Z.ltb_ge; lia).
  destruct (Nat.ltb_spec (Z.to_nat i) (length a)) as [Hin|Hout].
  - by rewrite list_lookup_insert_eq.
  - rewrite lookup_app_r by lia.
    rewrite lookup_app_r by (rewrite length_replicate; lia).
    rewrite length_replicate.
    by replace (Z.to_nat i - length a - (Z.to_nat i - length a))%nat with 0%nat by lia.
Qed.

Lemma arrayGet_arraySet_other a i j v :
  0 <= i -> j <> i -> Js.arrayGet (Js.arraySet a i v) j = Js.arrayGet a j.
Proof.
  intros Hi Hne. unfold Js.arrayGet, Js.arraySet.
  destruct (Z.ltb_spec j 0) as [Hneg|Hpos]; [done|].
  assert (Hnat : Z.to_nat i <> Z.to_nat j) by lia.
  destruct (Nat.ltb_spec (Z.to_nat i) (length a)) as [Hin|Hout].
  - by rewrite list_lookup_insert_ne.
  - destruct (decide (Z.to_nat j < length a)%nat) as [Hj|Hj].
    + by rewrite lookup_app_l.
    + rewrite (lookup_ge_None_2 a) by lia.
      rewrite lookup_app_r by lia.
      destruct (decide (Z.to_nat j - length a < Z.to_nat i - length a)%nat) as [Hk|Hk].
      * rewrite lookup_app_l by (rewrite length_replicate; lia).
        by rewrite lookup_replicate_2.
      * rewrite lookup_app_r by (rewrite length_replicate; lia).
        rewrite length_replicate.
        rewrite lookup_ge_None_2; [done|]. simpl. lia.
Qed.

End Arrays.

(** ** The constructed store *)

Section Constructed.

Lemma newStore_inv t1 t2 : gridInv (grid (newStore t1 t2)).
Proof. split; [reflexivity | by vm_compute]. Qed.

Lemma newStore_unique t1 t2 : uniqueCells (grid (newStore t1 t2)).
Proof.
  unfold uniqueCells.
  apply (bool_decide_unpack (NoDup (coordinates (Grid.cells (grid (newStore t1 t2)))))).
  by vm_compute.
Qed.

(** Every store reached from the constructed one has exactly [MAX_ROWS]
    rows, at least the 26 columns A to Z, and one header per column. *)
Lemma reached_store t1 t2 rs :
  let g := grid (handleAll (newStore t1 t2) rs) in
  Grid.rows g = MAX_ROWS /\ 26 <= Grid.columns g /\
  Z.of_nat (length (Grid.headers g)) = Grid.columns g /\ uniqueCells g.
Proof.
  destruct (extends_handleAll (newStore t1 t2) rs) as (Hrows & Hcols & Hinv).
  destruct (Hinv (newStore_inv t1 t2)) as [Hlen Hcap].
  cbv zeta. change (Grid.rows (grid (newStore t1 t2))) with MAX_ROWS in Hrows.
  change (Grid.columns (grid (newStore t1 t2))) with 26 in Hcols.
  split; [lia | split; [lia | split; [done|]]].
  apply uniqueCells_handleAll, newStore_unique.
Qed.

End Constructed.

(** ** The claims *)

(** C1 (fails on the code). Free text whose first token is no address is
    rejected, not taken as a general message: the parser throws "Invalid
    cell format" for ["Hello World"], [processUserMessage] ends with an
    error and appends neither an action event nor a state event. *)
Theorem free_text_is_rejected o userId sessionId s :
  parseOn (grid s) "Hello World"
  = inl (CustomError.mk "Invalid cell format. Use: A1, B5, etc." 400) /\
  snd (processUserMessage o "Hello World" userId sessionId s) = inl genericError /\
  Store.actionEvents (fst (processUserMessage o "Hello World" userId sessionId s))
  = Store.actionEvents s /\
  Store.stateEvents (fst (processUserMessage o "Hello World" userId sessionId s))
  = Store.stateEvents s.
Proof.
  assert (H : parseOn (grid s) "Hello World"
              = inl (CustomError.mk "Invalid cell format. Use: A1, B5, etc." 400))
    by (vm_compute; reflexivity).
  split; [exact H|]. by rewrite (failed_parse _ _ _ _ _ _ H).
Qed.

(** C2 (fails on the code). ["ZZZ1 x"] is applied: the parser resolves the
    column with [letterToColumnIndex], which has no ceiling, to index 18277
    and the store writes the cell and widens the grid to 18278 columns. The
    ceiling of column ZZ is in [parseColumn], which returns -1 for ["ZZZ"]
    and is never called. *)
Theorem column_beyond_ZZ_is_accepted o userId sessionId s :
  letterToColumnIndex "ZZZ" = 18277 /\ parseColumn "ZZZ" = -1 /\
  exists s' res,
    processUserMessage o "ZZZ1 x" userId sessionId s = (s', inr res) /\
    Result.parsedCommand res = SINGLE (Some "ZZZ1") (Some 18277) (Some 1) "x" "ZZZ1 x" /\
    cellAt 0 18277 (grid s') = Some (Cell.mk 0 18277 "x" defaultFormat) /\
    Grid.columns (grid s') = Z.max (Grid.columns (grid s)) 18278.
Proof.
  split; [by vm_compute|]. split; [by vm_compute|].
  assert (H : parseOn (grid s) "ZZZ1 x"
              = inr (SINGLE (Some "ZZZ1") (Some 18277) (Some 1) "x" "ZZZ1 x"))
    by (vm_compute; reflexivity).
  rewrite processUserMessage_eq. cbv zeta. rewrite H, applyOn_single.
  eexists _, _. split; [reflexivity|]. split; [done|]. split.
  - unfold cellAt, grid. simpl.
    apply (find_upsert_same (Cell.mk 0 18277 "x" defaultFormat)).
  - unfold grid. simpl. apply autoExpand_columns.
Qed.

(** C3 (fails on the code). Whatever makes a call fail, the caller gets
    the error "Failed to process user message" with status 500: the
    [catch] block of [processUserMessage] replaces the error of the
    parser. For ["A0 x"] the parser throws "Row number must be at least 1"
    with status 400, and the call fails with the generic error. *)
Theorem validation_error_is_masked o userId sessionId s :
  parseOn (grid s) "A0 x" = inl (CustomError.mk "Row number must be at least 1" 400) /\
  snd (processUserMessage o "A0 x" userId sessionId s)
  = inl (CustomError.mk "Failed to process user message" 500) /\
  forall message,
    match snd (processUserMessage o message userId sessionId s) with
    | inl e => e = CustomError.mk "Failed to process user message" 500
    | inr _ => True
    end.
Proof.
  assert (H : parseOn (grid s) "A0 x"
              = inl (CustomError.mk "Row number must be at least 1" 400))
    by (vm_compute; reflexivity).
  split; [exact H|]. split.
  - by rewrite (failed_parse _ _ _ _ _ _ H).
  - intros message. apply every_failure_is_generic.
Qed.

(** C4 (fails on the code for ranges). The single command ["A0 x"] fails
    and leaves the grid as it was, but the range command ["A0-5 x"] is
    applied: the range branch of the parser has no check of the rows, and
    the loop writes a cell at row index -1. *)
Theorem range_row_zero_is_applied o userId sessionId s :
  (snd (processUserMessage o "A0 x" userId sessionId s) = inl genericError /\
   grid (fst (processUserMessage o "A0 x" userId sessionId s)) = grid s) /\
  exists s' res,
    processUserMessage o "A0-5 x" userId sessionId s = (s', inr res) /\
    Result.parsedCommand res = RANGE (Some "A0") (Some "5") 0 0 0 5 "x" "A0-5 x" /\
    cellAt (-1) 0 (grid s') = Some (Cell.mk (-1) 0 "x" defaultFormat).
Proof.
  split.
  - assert (H : parseOn (grid s) "A0 x"
                = inl (CustomError.mk "Row number must be at least 1" 400))
      by (vm_compute; reflexivity).
    by rewrite (failed_parse _ _ _ _ _ _ H).
  - assert (H : parseOn (grid s) "A0-5 x"
                = inr (RANGE (Some "A0") (Some "5") 0 0 0 5 "x" "A0-5 x"))
      by (vm_compute; reflexivity).
    rewrite processUserMessage_eq. cbv zeta. rewrite H.
    destruct (applyOn_range o (Some "A0") (Some "5") 0 0 0 5 "x" "A0-5 x" (grid s))
      as (actionEvent & stateEvent & -> & _).
    eexists _, _. split; [reflexivity|]. split; [done|].
    unfold grid at 1. simpl.
    apply (cellAt_rangeLoop "x" 0 5 0 0 (grid s, []) 0 0); lia.
Qed.

(** C5. The column codec is a bijection on its accepted domain. The
    decoder with the case folding, the sentinel -1 and the ceiling of
    column ZZ is [parseColumn]: for every [i] in [0, 701],
    [parseColumn (columnIndexToLetter i) = i], and for every non-empty
    string of letters [L] whose index is within the accepted range,
    [columnIndexToLetter (parseColumn L) = toUpperCase L]. The decoder that
    the parser calls, [letterToColumnIndex], is the same function on that
    domain once the letters are upper-cased, as the parser does. *)
Theorem codec_round_trip (i : Z) (L : string) :
  (0 <= i <= 701 ->
   parseColumn (columnIndexToLetter i) = i /\
   letterToColumnIndex (columnIndexToLetter i) = i) /\
  (L <> "" -> allChars isLetter L = true -> 0 <= parseColumn L <= 701 ->
   columnIndexToLetter (parseColumn L) = Js.toUpperCase L /\
   parseColumn L = letterToColumnIndex (Js.toUpperCase L)).
Proof.
  split.
  - intros Hi. split; [by apply parseColumn_columnIndexToLetter|].
    apply letterToColumnIndex_columnIndexToLetter. lia.
  - intros _ Hletters Hrange. split.
    + apply columnIndexToLetter_parseColumn; [done | lia].
    + revert Hrange. rewrite parseColumn_letters by done.
      destruct (701 <? _); [lia | done].
Qed.

(** The round trip at index 701 and at the letters ["zz"]. *)
Lemma codec_round_trip_witness :
  (parseColumn (columnIndexToLetter 701) = 701 /\
   letterToColumnIndex (columnIndexToLetter 701) = 701) /\
  (columnIndexToLetter (parseColumn "zz") = Js.toUpperCase "zz" /\
   parseColumn "zz" = letterToColumnIndex (Js.toUpperCase "zz")).
Proof.
  destruct (codec_round_trip 701 "zz") as [Hindex Hletters]. split.
  - apply Hindex. lia.
  - apply Hletters; [discriminate | reflexivity | by vm_compute].
Defined.

(** C6. ["A1-100 X"] on any store: the command is a RANGE whose end column
    is its start column; afterwards every cell (row 0..99, column 0) holds
    ["X"], the row count is the larger of what it was and 100, and the call
    has appended one action event, whose [cellsUpdated] is 100, and one
    state event. The cell at a coordinate is the one the store itself finds
    there ([cellAt]); when the store held one cell per coordinate, as every
    store reached from the constructed one does, that is every cell of the
    array with row 0..99 and column 0. *)
Theorem fill_A1_to_A100 o userId sessionId s :
  exists s' res,
    processUserMessage o "A1-100 X" userId sessionId s = (s', inr res) /\
    Result.parsedCommand res = RANGE (Some "A1") (Some "100") 0 1 0 100 "X" "A1-100 X" /\
    (forall rowIndex, 0 <= rowIndex <= 99 ->
       cellAt rowIndex 0 (grid s') = Some (Cell.mk rowIndex 0 "X" defaultFormat)) /\
    Grid.rows (grid s') = Z.max (Grid.rows (grid s)) 100 /\
    Store.actionEvents s' = (Store.actionEvents s ++ [Result.actionEvent res])%list /\
    ActionEvent.data (Result.actionEvent res) = RangeData "X" "A1-100" 100 /\
    Store.stateEvents s' = (Store.stateEvents s ++ [Result.stateEvent res])%list /\
    (uniqueCells (grid s) ->
     forall c, c ∈ Grid.cells (grid s') -> 0 <= Cell.row c <= 99 -> Cell.col c = 0 ->
               Cell.value c = "X").
Proof.
  assert (H : parseOn (grid s) "A1-100 X"
              = inr (RANGE (Some "A1") (Some "100") 0 1 0 100 "X" "A1-100 X"))
    by (vm_compute; reflexivity).
  rewrite processUserMessage_eq. cbv zeta. rewrite H.
  destruct (applyOn_range o (Some "A1") (Some "100") 0 1 0 100 "X" "A1-100 X" (grid s))
    as (actionEvent & stateEvent & -> & _ & Hdata & _).
  eexists _, _. split; [reflexivity|]. split; [done|].
  unfold grid at 1 2 4 5. cbn [Store.spreadsheetState Store.actionEvents Store.stateEvents
                                 Result.actionEvent Result.stateEvent].
  assert (Hcells : forall rowIndex, 0 <= rowIndex <= 99 ->
            cellAt rowIndex 0 (fst (rangeLoop "X" 1 100 0 0 (grid s, [])))
            = Some (Cell.mk rowIndex 0 "X" defaultFormat)).
  { intros rowIndex Hrow.
    replace rowIndex with (rowIndex + 1 - 1) by lia.
    apply (cellAt_rangeLoop "X" 1 100 0 0 (grid s, []) (rowIndex + 1) 0); lia. }
  split; [exact Hcells|]. split; [|split; [done|split; [|split; [done|]]]].
  - apply (rows_rangeLoop "X" 1 100 0 0 (grid s, [])); unfold MAX_ROWS; lia.
  - rewrite Hdata, length_rangeLoop. reflexivity.
  - intros Hunique c Hin Hrow Hcol.
    apply (uniqueCells_rangeLoop "X" 1 100 0 0 (grid s, [])) in Hunique.
    by rewrite (cellAt_unique _ _ _ _ c Hunique (Hcells (Cell.row c) Hrow) Hin eq_refl Hcol).
Qed.

(** ["A1-100 X"] on the constructed store, which holds one cell per
    coordinate. *)
Lemma fill_A1_to_A100_witness :
  exists s' res,
    processUserMessage (Oracle.mk 0 0 "" 0 "" 0 "") "A1-100 X" None None (newStore 0 0)
    = (s', inr res) /\
    ActionEvent.data (Result.actionEvent res) = RangeData "X" "A1-100" 100 /\
    forall c, c ∈ Grid.cells (grid s') -> 0 <= Cell.row c <= 99 -> Cell.col c = 0 ->
              Cell.value c = "X".
Proof.
  destruct (fill_A1_to_A100 (Oracle.mk 0 0 "" 0 "" 0 "") None None (newStore 0 0))
    as (s' & res & Hrun & _ & _ & _ & _ & Hdata & _ & Hall).
  exists s', res. split; [exact Hrun|]. split; [exact Hdata|].
  apply Hall, newStore_unique.
Defined.

(** C7. ["change column B to Age"] on a store with a column B: the call
    succeeds, header 1 is ["Age"], and the cells, the row count, the
    column count and every other header are what they were. *)
Theorem rename_column_B o userId sessionId s :
  1 < Grid.columns (grid s) ->
  exists s' res,
    processUserMessage o "change column B to Age" userId sessionId s = (s', inr res) /\
    Js.arrayGet (Grid.headers (grid s')) 1 = Some "Age" /\
    Grid.cells (grid s') = Grid.cells (grid s) /\
    Grid.rows (grid s') = Grid.rows (grid s) /\
    Grid.columns (grid s') = Grid.columns (grid s) /\
    (forall i, i <> 1 ->
       Js.arrayGet (Grid.headers (grid s')) i = Js.arrayGet (Grid.headers (grid s)) i) /\
    (Z.of_nat (length (Grid.headers (grid s))) = Grid.columns (grid s) ->
     Grid.headers (grid s') = <[1%nat := Some "Age"]> (Grid.headers (grid s))).
Proof.
  intros Hcols.
  assert (H : parseOn (grid s) "change column B to Age"
              = inr (HEADER_RENAME 1 "Age" "change column B to Age")).
  { transitivity
      (if 1 >=? Grid.columns (grid s)
       then inl (CustomError.mk "Invalid column: B" 400)
       else inr (HEADER_RENAME 1 "Age" "change column B to Age")).
    - destruct (grid s) as [cells rows columns headers].
      vm_compute. destruct columns as [|[p|p|]|p]; reflexivity.
    - destruct (Z.geb_spec 1 (Grid.columns (grid s))); [lia | done]. }
  rewrite processUserMessage_eq. cbv zeta. rewrite H, applyOn_rename by lia.
  eexists _, _. split; [reflexivity|].
  unfold grid at 1 3 5 7 9. cbn [Store.spreadsheetState Grid.setHeaders Grid.headers
                                  Grid.cells Grid.rows Grid.columns].
  split; [|split; [done|split; [done|split; [done|split]]]].
  - by apply arrayGet_arraySet_same.
  - intros i Hi. by apply arrayGet_arraySet_other.
  - intros Hlen. unfold Js.arraySet. change (Z.to_nat 1) with 1%nat.
    destruct (Nat.ltb_spec 1 (length (Grid.headers (grid s)))); [done | lia].
Qed.

(** The rename of column B on the constructed store. *)
Lemma rename_column_B_witness :
  exists s' res,
    processUserMessage (Oracle.mk 0 0 "" 0 "" 0 "") "change column B to Age" None None
      (newStore 0 0) = (s', inr res) /\
    Js.arrayGet (Grid.headers (grid s')) 1 = Some "Age" /\
    Grid.cells (grid s') = Grid.cells (grid (newStore 0 0)) /\
    Grid.rows (grid s') = Grid.rows (grid (newStore 0 0)) /\
    Grid.columns (grid s') = Grid.columns (grid (newStore 0 0)) /\
    (forall i, i <> 1 ->
       Js.arrayGet (Grid.headers (grid s')) i
       = Js.arrayGet (Grid.headers (grid (newStore 0 0))) i) /\
    (Z.of_nat (length (Grid.headers (grid (newStore 0 0))))
     = Grid.columns (grid (newStore 0 0)) ->
     Grid.headers (grid s') = <[1%nat := Some "Age"]> (Grid.headers (grid (newStore 0 0)))).
Proof.
  apply (rename_column_B (Oracle.mk 0 0 "" 0 "" 0 "") None None (newStore 0 0)).
  reflexivity.
Defined.

(** C8. A failed call is atomic: the grid, the action log and the state
    log are what they were before it, and any later call gives the same
    result, grid and logs as it would have given had the failed call never
    been made. (The failed message itself stays in the log of user events,
    which is written before parsing.) *)
Theorem failed_call_changes_nothing o message userId sessionId s s' e :
  processUserMessage o message userId sessionId s = (s', inl e) ->
  (grid s' = grid s /\
   Store.actionEvents s' = Store.actionEvents s /\
   Store.stateEvents s' = Store.stateEvents s) /\
  forall o2 message2 userId2 sessionId2,
    let afterFailure := processUserMessage o2 message2 userId2 sessionId2 s' in
    let withoutFailure := processUserMessage o2 message2 userId2 sessionId2 s in
    snd afterFailure = snd withoutFailure /\
    grid (fst afterFailure) = grid (fst withoutFailure) /\
    Store.actionEvents (fst afterFailure) = Store.actionEvents (fst withoutFailure) /\
    Store.stateEvents (fst afterFailure) = Store.stateEvents (fst withoutFailure).
Proof.
  intros Hfail.
  assert (Hsame : grid s' = grid s /\
                  Store.actionEvents s' = Store.actionEvents s /\
                  Store.stateEvents s' = Store.stateEvents s).
  { rewrite processUserMessage_eq in Hfail. cbv zeta in Hfail.
    destruct (parseOn (grid s) message) as [e1|c].
    - by injection Hfail as <- _.
    - destruct (applyOn o c (grid s)) as [g' [e1|[actionEvent stateEvent]]] eqn:Happly;
        [|discriminate].
      apply applyOn_fails in Happly as ->. by injection Hfail as <- _. }
  split; [exact Hsame|].
  destruct Hsame as (Hgrid & Hactions & Hstates).
  intros o2 message2 userId2 sessionId2. cbv zeta.
  rewrite !processUserMessage_eq. cbv zeta. rewrite Hgrid, Hactions, Hstates.
  destruct (parseOn (grid s) message2) as [e2|c2]; [done|].
  by destruct (applyOn o2 c2 (grid s)) as [g2 [e2|[actionEvent stateEvent]]].
Qed.

(** The failing call ["A0 x"] on the constructed store. *)
Lemma failed_call_changes_nothing_witness :
  let o := Oracle.mk 0 0 "" 0 "" 0 "" in
  let s := newStore 0 0 in
  let s' := fst (processUserMessage o "A0 x" None None s) in
  (grid s' = grid s /\
   Store.actionEvents s' = Store.actionEvents s /\
   Store.stateEvents s' = Store.stateEvents s) /\
  forall o2 message2 userId2 sessionId2,
    let afterFailure := processUserMessage o2 message2 userId2 sessionId2 s' in
    let withoutFailure := processUserMessage o2 message2 userId2 sessionId2 s in
    snd afterFailure = snd withoutFailure /\
    grid (fst afterFailure) = grid (fst withoutFailure) /\
    Store.actionEvents (fst afterFailure) = Store.actionEvents (fst withoutFailure) /\
    Store.stateEvents (fst afterFailure) = Store.stateEvents (fst withoutFailure).
Proof.
  intros o s s'.
  apply (failed_call_changes_nothing o "A0 x" None None s s' genericError).
  vm_compute. reflexivity.
Defined.

(** C9. Over any sequence of calls, failed ones included, the row count
    and the column count never decrease, the row count stays within the
    cap, and after every call there is one header per column: from a store
    that satisfies the invariant, as the constructed one does, the counts
    after any further calls are at least what they were, and the invariant
    still holds. *)
Theorem grid_only_grows s before after :
  gridInv (grid s) ->
  let s1 := handleAll s before in
  let s2 := handleAll s1 after in
  Grid.rows (grid s1) <= Grid.rows (grid s2) /\
  Grid.columns (grid s1) <= Grid.columns (grid s2) /\
  Grid.rows (grid s2) <= MAX_ROWS /\
  Z.of_nat (length (Grid.headers (grid s2))) = Grid.columns (grid s2).
Proof.
  intros Hinv s1 s2.
  destruct (extends_handleAll s before) as (_ & _ & Hinv1).
  destruct (extends_handleAll s1 after) as (Hrows & Hcols & Hinv2).
  fold s1 in Hinv1. fold s2 in Hrows, Hcols, Hinv2.
  destruct (Hinv2 (Hinv1 Hinv)) as [Hlen Hcap]. auto.
Qed.

(** One call, then a call beyond both bounds and a failing call, on the
    constructed store. *)
Lemma grid_only_grows_witness :
  let o := Oracle.mk 0 0 "" 0 "" 0 "" in
  let s1 := handleAll (newStore 0 0) [Request.mk o "B2 x" None None] in
  let s2 := handleAll s1 [Request.mk o "AB200 y" None None; Request.mk o "oops" None None] in
  Grid.rows (grid s1) <= Grid.rows (grid s2) /\
  Grid.columns (grid s1) <= Grid.columns (grid s2) /\
  Grid.rows (grid s2) <= MAX_ROWS /\
  Z.of_nat (length (Grid.headers (grid s2))) = Grid.columns (grid s2).
Proof.
  intros o.
  apply (grid_only_grows (newStore 0 0) [Request.mk o "B2 x" None None]
           [Request.mk o "AB200 y" None None; Request.mk o "oops" None None]).
  split; [reflexivity | by vm_compute].
Defined.

(** C10. A SINGLE command whose row is beyond the cap succeeds on a store
    within the cap: the row count is [MAX_ROWS] afterwards, and the cell is
    written at its full row index [row - 1], which is not below the row
    count. *)
Theorem single_beyond_cap o message userId sessionId s cell col row value raw :
  Grid.rows (grid s) <= MAX_ROWS ->
  parseOn (grid s) message = inr (SINGLE cell (Some col) (Some row) value raw) ->
  MAX_ROWS < row ->
  exists s' res,
    processUserMessage o message userId sessionId s = (s', inr res) /\
    Grid.rows (grid s') = MAX_ROWS /\
    cellAt (row - 1) col (grid s') = Some (Cell.mk (row - 1) col value defaultFormat) /\
    Cell.mk (row - 1) col value defaultFormat ∈ Grid.cells (grid s') /\
    Grid.rows (grid s') <= row - 1.
Proof.
  intros Hcap Hparse Hrow.
  rewrite processUserMessage_eq. cbv zeta. rewrite Hparse, applyOn_single.
  eexists _, _. split; [reflexivity|].
  set (g := grid s) in *.
  unfold grid, cellAt.
  cbn [Store.spreadsheetState Grid.setCells Grid.rows Grid.cells].
  rewrite autoExpand_rows.
  assert (Hrows : Z.max (Grid.rows g) (Z.min row MAX_ROWS) = MAX_ROWS) by lia.
  rewrite Hrows. split; [done|]. split; [|split; [|lia]].
  - apply (find_upsert_same (Cell.mk (row - 1) col value defaultFormat)).
  - apply elem_of_upsertCell.
Qed.

(** ["A200 x"] on the constructed store. *)
Lemma single_beyond_cap_witness :
  exists s' res,
    processUserMessage (Oracle.mk 0 0 "" 0 "" 0 "") "A200 x" None None (newStore 0 0)
    = (s', inr res) /\
    Grid.rows (grid s') = MAX_ROWS /\
    cellAt (200 - 1) 0 (grid s') = Some (Cell.mk (200 - 1) 0 "x" defaultFormat) /\
    Cell.mk (200 - 1) 0 "x" defaultFormat ∈ Grid.cells (grid s') /\
    Grid.rows (grid s') <= 200 - 1.
Proof.
  apply (single_beyond_cap (Oracle.mk 0 0 "" 0 "" 0 "") "A200 x" None None (newStore 0 0)
           (Some "A200") 0 200 "x" "A200 x").
  - by vm_compute.
  - vm_compute. reflexivity.
  - reflexivity.
Defined.

(** * Further properties *)

(** ** The codec, continued *)

Section CodecShape.

Lemma columnIndexToLetter_negative index : index < 0 -> columnIndexToLetter index = "".
Proof.
  intros H. unfold columnIndexToLetter, loopBound. simpl.
  by replace (0 <=? index) with false by (symmetry; apply Z.leb_gt; lia).
Qed.

Lemma columnIndexToLetter_inj i j :
  0 <= i -> 0 <= j -> columnIndexToLetter i = columnIndexToLetter j -> i = j.
Proof.
  intros Hi Hj Heq.
  rewrite <- (letterToColumnIndex_columnIndexToLetter i Hi).
  rewrite <- (letterToColumnIndex_columnIndexToLetter j Hj). by rewrite Heq.
Qed.

Lemma parseColumnLoop_not_upper u a :
  allChars Js.isUpper u = false -> parseColumnLoop u a = None.
Proof.
  revert a. induction u as [|c u IH]; intros a; [done|]. cbn [allChars parseColumnLoop].
  cbv zeta. destruct (Js.isUpper c) eqn:Hc; cbn [andb].
  - intros Hu. apply isUpper_spec in Hc.
    replace (Js.charCode c <? 65) with false by (symmetry; apply Z.ltb_ge; lia).
    replace (90 <? Js.charCode c) with false by (symmetry; apply Z.ltb_ge; lia).
    cbn [orb]. by apply IH.
  - intros _. unfold Js.isUpper in Hc. apply andb_false_iff in Hc.
    destruct (Js.charCode c <? 65) eqn:E1; [done|].
    destruct (90 <? Js.charCode c) eqn:E2; [done|].
    apply Z.ltb_ge in E1, E2. destruct Hc as [H|H]; apply Z.leb_gt in H; lia.
Qed.

(** On 7-bit text upper-casing gives capitals only from letters. *)
Lemma toUpperCase_not_letters s :
  sevenBit s = true -> allChars isLetter s = false ->
  allChars Js.isUpper (Js.toUpperCase s) = false.
Proof.
  unfold sevenBit. induction s as [|c s IH]; [done|]. cbn [allChars].
  rewrite andb_true_iff. intros [Hc%Z.ltb_lt Hs].
  rewrite toUpperCase_cons by lia. cbn [allChars].
  destruct (isLetter c) eqn:Hl; cbn [andb].
  - intros Hrest. by rewrite (IH Hs Hrest), andb_false_r.
  - intros _. apply andb_false_iff. left.
    unfold isLetter in Hl. apply orb_false_iff in Hl as [Hup Hlow].
    unfold Js.upperChar. by rewrite Hlow.
Qed.

(** [parseColumn] in terms of the upper-cased string. *)
Lemma parseColumn_upper_cased s :
  parseColumn s
  = (if allChars Js.isUpper (Js.toUpperCase s)
        && (letterToColumnIndex (Js.toUpperCase s) <=? 701)
     then letterToColumnIndex (Js.toUpperCase s) else -1).
Proof.
  unfold parseColumn, letterToColumnIndex. cbv zeta.
  destruct (allChars Js.isUpper (Js.toUpperCase s)) eqn:Ht; cbn [andb].
  - rewrite parseColumnLoop_upper by done.
    destruct (Z.ltb_spec 702 (letterToColumnIndexLoop (Js.toUpperCase s) 0));
      destruct (Z.leb_spec (letterToColumnIndexLoop (Js.toUpperCase s) 0 - 1) 701);
      (done || lia).
  - by rewrite parseColumnLoop_not_upper.
Qed.

End CodecShape.

(** X1. [columnIndexToLetter] returns capital letters only; the result is
    empty exactly for a negative index, and two different indices from 0
    on get different letters. *)
Theorem columnIndexToLetter_shape i j :
  allChars Js.isUpper (columnIndexToLetter i) = true /\
  (columnIndexToLetter i = "" <-> i < 0) /\
  (0 <= i -> 0 <= j -> columnIndexToLetter i = columnIndexToLetter j -> i = j).
Proof.
  split; [apply columnIndexToLetter_upper|]. split; [split|].
  - intros Hempty. destruct (decide (i < 0)) as [|Hpos]; [done|].
    pose proof (letterToColumnIndex_columnIndexToLetter i ltac:(lia)) as Hback.
    rewrite Hempty in Hback. vm_compute in Hback. lia.
  - apply columnIndexToLetter_negative.
  - apply columnIndexToLetter_inj.
Qed.

(** X2. [generateColumnHeaders count] has [count] entries (none when [count]
    is not positive), entry [i] is [columnIndexToLetter i], and no label
    occurs twice. *)
Theorem generateColumnHeaders_spec count (i : nat) :
  length (generateColumnHeaders count) = Z.to_nat count /\
  generateColumnHeaders count !! i
  = (if decide (Z.of_nat i < count) then Some (columnIndexToLetter (Z.of_nat i)) else None) /\
  NoDup (generateColumnHeaders count).
Proof.
  unfold generateColumnHeaders. split; [by rewrite length_fmap, length_seqZ|]. split.
  - rewrite list_lookup_fmap. destruct (decide _) as [Hi|Hi].
    + rewrite lookup_seqZ_lt by lia. simpl. by rewrite ?Z.add_0_l.
    + rewrite lookup_seqZ_ge by lia. done.
  - apply NoDup_fmap_2_strong; [|apply NoDup_seqZ].
    intros x y Hx Hy. apply elem_of_seqZ in Hx, Hy.
    apply columnIndexToLetter_inj; lia.
Qed.

(** X3. [parseColumn] folds case and checks its input: on a 7-bit string
    of letters whose column is at most ZZ it is [letterToColumnIndex] of
    the upper-cased string, and on every other 7-bit string (a character
    that is no letter, a column beyond ZZ) it is -1; the empty string gives
    -1. Its result lies between -1 and 701 on every string. It inverts
    [columnIndexToLetter] on the indices 0 to 701 and gives -1 on the
    letters of every other index. *)
Theorem parseColumn_spec (s : string) (i : Z) :
  (sevenBit s = true ->
   parseColumn s
   = (if allChars isLetter s && (letterToColumnIndex (Js.toUpperCase s) <=? 701)
      then letterToColumnIndex (Js.toUpperCase s) else -1)) /\
  -1 <= parseColumn s <= 701 /\
  parseColumn (columnIndexToLetter i) = (if (0 <=? i) && (i <=? 701) then i else -1).
Proof.
  split; [|split].
  - intros Hseven. rewrite parseColumn_upper_cased.
    destruct (allChars isLetter s) eqn:Hletters.
    + by rewrite toUpperCase_letters.
    + by rewrite toUpperCase_not_letters.
  - rewrite parseColumn_upper_cased.
    destruct (allChars Js.isUpper (Js.toUpperCase s)) eqn:Hs; cbn [andb]; [|lia].
    destruct (Z.leb_spec (letterToColumnIndex (Js.toUpperCase s)) 701); [|lia].
    pose proof (letterToColumnIndexLoop_nonneg (Js.toUpperCase s) 0 Hs ltac:(lia)).
    unfold letterToColumnIndex in *. lia.
  - rewrite parseColumn_upper_cased.
    rewrite (toUpperCase_upper _ (columnIndexToLetter_upper i)).
    rewrite columnIndexToLetter_upper. cbn [andb].
    destruct (Z.leb_spec 0 i) as [Hpos|Hneg]; cbn [andb].
    + by rewrite letterToColumnIndex_columnIndexToLetter.
    + rewrite columnIndexToLetter_negative by lia. reflexivity.
Qed.

(** The letters ["Ab"], the text ["a1"] and the index 27. *)
Lemma parseColumn_spec_witness :
  parseColumn "Ab" = 27 /\ parseColumn "a1" = -1 /\
  parseColumn (columnIndexToLetter 27) = 27.
Proof.
  destruct (parseColumn_spec "Ab" 27) as (Hletters & _ & Hindex).
  destruct (parseColumn_spec "a1" 27) as (Hother & _ & _).
  split; [exact (Hletters eq_refl)|]. split; [exact (Hother eq_refl) | exact Hindex].
Defined.

(** ** The parser and the outcome of a call *)

Section ParserOutcome.

Lemma parseOn_error_400 g message e :
  parseOn g message = inl e -> CustomError.statusCode e = 400.
Proof.
  unfold parseOn, parseCommand.
  destruct (length _ <? 2)%nat; [by intros [= <-]|].
  destruct (exec renamePattern _); [|destruct (exec rangePattern _)].
  - unfold bind, getState, bare; simpl. destruct (_ || _); simpl; [by intros [= <-] | discriminate].
  - destruct (exec endPattern _); [discriminate | by intros [= <-]].
  - destruct (exec cellPattern _); [|by intros [= <-]].
    destruct (_ <? 1); [by intros [= <-] | discriminate].
Qed.

Lemma parseOn_rename g message col value raw :
  parseOn g message = inr (HEADER_RENAME col value raw) ->
  0 <= col < Grid.columns g.
Proof.
  unfold parseOn, parseCommand.
  destruct (length _ <? 2)%nat; [discriminate|].
  destruct (exec renamePattern _); [|destruct (exec rangePattern _)].
  - unfold bind, getState, bare; simpl.
    destruct (Z.ltb_spec (letterToColumnIndex (Js.toUpperCase (group c 1))) 0);
      destruct (Z.geb_spec (letterToColumnIndex (Js.toUpperCase (group c 1))) (Grid.columns g));
      simpl; try discriminate.
    intros [= <- _ _]. lia.
  - destruct (exec endPattern _); discriminate.
  - destruct (exec cellPattern _); [|discriminate]. destruct (_ <? 1); discriminate.
Qed.

(** The parser reads nothing of the grid but its column count. *)
Lemma parseOn_columns g g' message :
  Grid.columns g = Grid.columns g' -> parseOn g message = parseOn g' message.
Proof.
  intros Hcols. unfold parseOn, parseCommand.
  destruct (length _ <? 2)%nat; [done|].
  destruct (exec renamePattern _); [|destruct (exec rangePattern _)].
  - unfold bind, getState, bare; simpl. rewrite Hcols. by destruct (_ || _).
  - by destruct (exec endPattern _).
  - destruct (exec cellPattern _); [|done]. by destruct (_ <? 1).
Qed.

(** A message that is not a rename is parsed the same on every grid. *)
Lemma parseOn_independent g g' message c :
  parseOn g message = inr c ->
  (forall col value raw, c <> HEADER_RENAME col value raw) ->
  parseOn g' message = inr c.
Proof.
  unfold parseOn, parseCommand.
  destruct (length _ <? 2)%nat; [done|].
  destruct (exec renamePattern _); [|destruct (exec rangePattern _)].
  - unfold bind, getState, bare; simpl.
    destruct (_ || _); simpl; [discriminate|].
    intros [= <-] Hne. exfalso. by eapply Hne.
  - by destruct (exec endPattern _).
  - destruct (exec cellPattern _); [|done]. by destruct (_ <? 1).
Qed.

Lemma applyOn_succeeds o g message c :
  parseOn g message = inr c ->
  exists g' events, applyOn o c g = (g', inr events).
Proof.
  intros Hparse.
  destruct c as [cell col row value raw | sc ec c1 r1 c2 r2 value raw | col value raw].
  - destruct (parseOn_single _ _ _ _ _ _ _ Hparse) as [[c ->] [r ->]].
    rewrite applyOn_single. eauto.
  - destruct (applyOn_range o sc ec c1 r1 c2 r2 value raw g)
      as (actionEvent & stateEvent & -> & _). eauto.
  - rewrite applyOn_rename by (by eapply parseOn_rename). eauto.
Qed.

Lemma splitGo_no_space s inSep cur :
  allChars notSpace s = true -> Js.splitGo s inSep cur = [cur +:+ s].
Proof.
  revert inSep cur. induction s as [|c s IH]; intros inSep cur; simpl.
  - intros _. by rewrite string_app_empty.
  - unfold notSpace at 1. rewrite andb_true_iff, negb_true_iff. intros [-> Hs].
    rewrite IH by done. by rewrite string_app_snoc.
Qed.

End ParserOutcome.

(** X4. [parseCommand] leaves the store as it is and throws errors of
    status 400 only. A call of [processUserMessage] fails exactly when
    [parseCommand] throws: once a command is parsed its branch succeeds, so
    the second check of the column in the rename branch never fires, and
    the result carries the parsed command. *)
Theorem call_fails_exactly_when_parser_throws o message userId sessionId s :
  fst (parseCommand message s) = s /\
  match snd (parseCommand message s) with
  | inl e =>
      CustomError.statusCode e = 400 /\
      snd (processUserMessage o message userId sessionId s) = inl genericError
  | inr c =>
      exists s' res,
        processUserMessage o message userId sessionId s = (s', inr res) /\
        Result.parsedCommand res = c
  end.
Proof.
  rewrite parseCommand_eq. split; [done|]. cbn [snd].
  rewrite processUserMessage_eq. cbv zeta.
  destruct (parseOn (grid s) message) as [e|c] eqn:Hparse.
  - split; [by eapply parseOn_error_400 | done].
  - destruct (applyOn_succeeds o _ _ _ Hparse) as (g' & [actionEvent stateEvent] & ->).
    by eexists _, _.
Qed.

(** X5. A 7-bit message that is one word after trimming (or nothing at
    all) is rejected with the format error, whatever the word, a valid cell
    address included. *)
Theorem one_word_is_rejected g message :
  sevenBit message = true ->
  allChars notSpace (Js.trim message) = true ->
  parseOn g message
  = inl (CustomError.mk "Invalid command format. Use: <cell> <value> or <range> <value>" 400).
Proof.
  intros _ Hword. unfold parseOn, parseCommand, Js.splitSpaces.
  by rewrite splitGo_no_space.
Qed.

Lemma one_word_is_rejected_witness :
  parseOn (grid (newStore 0 0)) "  A1 "
  = inl (CustomError.mk "Invalid command format. Use: <cell> <value> or <range> <value>" 400).
Proof. apply one_word_is_rejected; reflexivity. Defined.

(** X6. Every call, failed or not, appends one user event holding the
    message as it was sent (not trimmed), with ['anonymous'] and ['default']
    for a missing or empty user and session. A successful call appends
    exactly the action event and the state event it returns; a failed call
    appends neither. *)
Theorem logs_after_a_call o message userId sessionId s :
  let r := processUserMessage o message userId sessionId s in
  Store.userEvents (fst r)
  = (Store.userEvents s ++
     [UserEvent.mk (freshId "user" (Oracle.userNow o) (Oracle.userRandom o)) message
        (Oracle.newDate o)
        (match userId with Some (String c u) => String c u | _ => "anonymous" end)
        (match sessionId with Some (String c u) => String c u | _ => "default" end)])%list /\
  match snd r with
  | inl _ =>
      Store.actionEvents (fst r) = Store.actionEvents s /\
      Store.stateEvents (fst r) = Store.stateEvents s
  | inr res =>
      Store.actionEvents (fst r) = (Store.actionEvents s ++ [Result.actionEvent res])%list /\
      Store.stateEvents (fst r) = (Store.stateEvents s ++ [Result.stateEvent res])%list /\
      Store.userEvents (fst r) = (Store.userEvents s ++ [Result.userEvent res])%list
  end.
Proof.
  cbv zeta. rewrite processUserMessage_eq. cbv zeta.
  assert (Huser : userEventOf o message userId sessionId
    = UserEvent.mk (freshId "user" (Oracle.userNow o) (Oracle.userRandom o)) message
        (Oracle.newDate o)
        (match userId with Some (String c u) => String c u | _ => "anonymous" end)
        (match sessionId with Some (String c u) => String c u | _ => "default" end)).
  { unfold userEventOf, orElse. by destruct userId as [[|? ?]|], sessionId as [[|? ?]|]. }
  destruct (parseOn (grid s) message) as [e|c]; [by rewrite Huser|].
  destruct (applyOn o c (grid s)) as [g' [e|[actionEvent stateEvent]]]; simpl;
    rewrite Huser; [done|].
  by rewrite <- Huser.
Qed.

(** ** Writing cells *)

Section Writing.

Implicit Types (g : Grid.t) (cells : list Cell.t) (cellData : Cell.t).

Lemma upsertCell_found cellData cells :
  snd <$> list_find (fun c => Cell.row c = Cell.row cellData /\ Cell.col c = Cell.col cellData)
            cells = Some cellData ->
  upsertCell cellData cells = cells.
Proof.
  induction cells as [|c cells IH]; [done|].
  rewrite list_find_cons_snd, upsertCell_cons.
  destruct (decide _); [by intros [= ->] | intros H; by rewrite IH].
Qed.

Lemma length_upsertCell cellData cells :
  length (upsertCell cellData cells)
  = match list_find (fun c => Cell.row c = Cell.row cellData /\ Cell.col c = Cell.col cellData)
            cells with
    | Some _ => length cells
    | None => S (length cells)
    end.
Proof.
  induction cells as [|c cells IH]; [done|].
  rewrite upsertCell_cons. simpl list_find.
  destruct (decide _); [done|]. simpl. rewrite IH.
  by destruct (list_find _ cells).
Qed.

Lemma coordinates_upsertCell_keeps cellData cells k :
  k ∈ coordinates cells -> k ∈ coordinates (upsertCell cellData cells).
Proof.
  unfold coordinates. induction cells as [|c cells IH]; [by intros ?%elem_of_nil|].
  rewrite upsertCell_cons. destruct (decide _) as [[Hr Hc]|Hne]; simpl.
  - rewrite !elem_of_cons. rewrite Hr, Hc. tauto.
  - rewrite !elem_of_cons. intros [->|Hk]; auto.
Qed.

Lemma autoExpand_id row col g :
  Z.min row MAX_ROWS <= Grid.rows g -> col + 1 <= Grid.columns g ->
  autoExpand row col g = g.
Proof.
  intros Hrows Hcols. unfold autoExpand. cbv zeta.
  destruct (Z.gtb_spec (Z.min (Z.max (Grid.rows g) row) MAX_ROWS) (Grid.rows g)); [lia|].
  destruct (Z.gtb_spec (Z.max (Grid.columns g) (col + 1)) (Grid.columns g)); [lia | done].
Qed.

Lemma setCells_id g : Grid.setCells (Grid.cells g) g = g.
Proof. by destruct g. Qed.

Lemma keepsCells_refl g : keepsCells g g.
Proof. split; [done | lia]. Qed.

Lemma keepsCells_trans g1 g2 g3 : keepsCells g1 g2 -> keepsCells g2 g3 -> keepsCells g1 g3.
Proof. intros [? ?] [? ?]. split; [by etrans | lia]. Qed.

Lemma keepsCells_write row col cellData g :
  keepsCells g (Grid.setCells (upsertCell cellData (Grid.cells (autoExpand row col g)))
                  (autoExpand row col g)).
Proof.
  split; simpl; rewrite autoExpand_cells.
  - intros k. apply coordinates_upsertCell_keeps.
  - rewrite length_upsertCell. destruct (list_find _ _); lia.
Qed.

Lemma keepsCells_rangeLoop value r1 r2 c1 c2 acc :
  keepsCells (fst acc) (fst (rangeLoop value r1 r2 c1 c2 acc)).
Proof.
  apply (rangeLoop_preserves (fun a => keepsCells (fst acc) (fst a))).
  - apply keepsCells_refl.
  - intros row col a _ _ Ha. eapply keepsCells_trans; [exact Ha|].
    apply keepsCells_write.
Qed.

Lemma keepsCells_applyOn o c g : keepsCells g (fst (applyOn o c g)).
Proof.
  unfold applyOn, grid, bare.
  destruct c as [cell [col|] [row|] value raw | sc ec c1 r1 c2 r2 value raw | col value raw];
    simpl; try apply keepsCells_refl.
  - apply keepsCells_write.
  - unfold bind, getState, modifyState. simpl.
    pose proof (keepsCells_rangeLoop value r1 r2 c1 c2 (g, [])) as H.
    by destruct (rangeLoop _ _ _ _ _ _) as [g' updated].
  - unfold bind, getState, modifyState. simpl.
    destruct (_ || _); simpl; [apply keepsCells_refl | by split].
Qed.

Lemma keepsCells_handle s r : keepsCells (grid s) (grid (handle s r)).
Proof.
  unfold handle. rewrite processUserMessage_eq. cbv zeta.
  destruct (parseOn _ _) as [e|c]; [apply keepsCells_refl|].
  pose proof (keepsCells_applyOn (Request.oracle r) c (grid s)) as H.
  by destruct (applyOn _ _ _) as [g' [e|[actionEvent stateEvent]]].
Qed.

End Writing.

(** X7. The counters of [getHealthStatus] over any sequence of calls: the
    count of user events grows by the number of calls, the counts of action
    events and of state events grow by one and the same number, at most the
    number of calls, and the count of cells never goes down. *)
Theorem counters_over_calls s rs :
  let before := dataCounts s in
  let after := dataCounts (handleAll s rs) in
  DataCounts.userEvents after = DataCounts.userEvents before + Z.of_nat (length rs) /\
  (exists k, 0 <= k <= Z.of_nat (length rs) /\
     DataCounts.actionEvents after = DataCounts.actionEvents before + k /\
     DataCounts.stateEvents after = DataCounts.stateEvents before + k) /\
  DataCounts.cells before <= DataCounts.cells after.
Proof.
  cbv zeta. unfold dataCounts.
  cbn [DataCounts.userEvents DataCounts.actionEvents DataCounts.stateEvents DataCounts.cells].
  revert s. induction rs as [|r rs IH]; intros s.
  - cbn [handleAll foldl length]. split; [lia|]. split; [exists 0|]; lia.
  - change (handleAll s (r :: rs)) with (handleAll (handle s r) rs).
    destruct (IH (handle s r)) as (Husers & (k & Hk & Hactions & Hstates) & Hcells).
    rewrite Husers, Hactions, Hstates. clear IH Husers Hactions Hstates.
    pose proof (keepsCells_handle s r) as [_ Hkeep]. unfold grid in Hkeep.
    assert (Hstep :
      length (Store.userEvents (handle s r)) = S (length (Store.userEvents s)) /\
      exists d : nat, (d <= 1)%nat /\
        length (Store.actionEvents (handle s r)) = (length (Store.actionEvents s) + d)%nat /\
        length (Store.stateEvents (handle s r)) = (length (Store.stateEvents s) + d)%nat).
    { unfold handle. rewrite processUserMessage_eq. cbv zeta.
      destruct (parseOn (grid s) (Request.message r)) as [e|c].
      { cbn. rewrite length_app. cbn. split; [lia|]. exists 0%nat. lia. }
      destruct (applyOn _ c (grid s)) as [g' [e|[actionEvent stateEvent]]]; cbn.
      - rewrite length_app. cbn. split; [lia|]. exists 0%nat. lia.
      - rewrite !length_app. cbn. split; [lia|]. exists 1%nat. lia. }
    destruct Hstep as (Hu & d & Hd & Ha & Hs). rewrite Hu, Ha, Hs.
    cbn [length]. split; [lia|]. split; [exists (k + Z.of_nat d)|]; lia.
Qed.

(** X8. A successful single-cell command writes the cell at (row - 1, col)
    with the value and the default format, leaves what the store finds at
    every other coordinate as it was, and adds one cell to the array when
    the coordinate was empty and none when it was occupied. *)
Theorem single_cell_write o message userId sessionId s cell col row value raw :
  parseOn (grid s) message = inr (SINGLE cell (Some col) (Some row) value raw) ->
  let s' := fst (processUserMessage o message userId sessionId s) in
  cellAt (row - 1) col (grid s') = Some (Cell.mk (row - 1) col value defaultFormat) /\
  (forall rowIndex' col', ~ (row - 1 = rowIndex' /\ col = col') ->
     cellAt rowIndex' col' (grid s') = cellAt rowIndex' col' (grid s)) /\
  length (Grid.cells (grid s'))
  = match cellAt (row - 1) col (grid s) with
    | Some _ => length (Grid.cells (grid s))
    | None => S (length (Grid.cells (grid s)))
    end.
Proof.
  intros Hparse. cbv zeta.
  rewrite processUserMessage_eq. cbv zeta. rewrite Hparse, applyOn_single.
  set (g := grid s). unfold grid, cellAt.
  cbn [fst Store.spreadsheetState Grid.setCells Grid.cells]. rewrite autoExpand_cells.
  split; [|split].
  - apply (find_upsert_same (Cell.mk (row - 1) col value defaultFormat)).
  - intros rowIndex' col' Hne.
    by apply (find_upsert_other (Cell.mk (row - 1) col value defaultFormat)).
  - rewrite length_upsertCell. simpl. by destruct (list_find _ _).
Qed.

Lemma single_cell_write_witness :
  let o := Oracle.mk 0 0 "" 0 "" 0 "" in
  let s := newStore 0 0 in
  let s' := fst (processUserMessage o "K7 new" None None s) in
  cellAt (7 - 1) 10 (grid s') = Some (Cell.mk (7 - 1) 10 "new" defaultFormat) /\
  (forall rowIndex' col', ~ (7 - 1 = rowIndex' /\ 10 = col') ->
     cellAt rowIndex' col' (grid s') = cellAt rowIndex' col' (grid s)) /\
  length (Grid.cells (grid s'))
  = match cellAt (7 - 1) 10 (grid s) with
    | Some _ => length (Grid.cells (grid s))
    | None => S (length (Grid.cells (grid s)))
    end.
Proof.
  intros o s.
  apply (single_cell_write o "K7 new" None None s (Some "K7") 10 7 "new" "K7 new").
  vm_compute. reflexivity.
Defined.

(** X9. No call removes a cell: over any sequence of calls every coordinate
    that held a cell still holds one, and the array of cells is at least as
    long as it was. *)
Theorem cells_are_never_removed s rs :
  coordinates (Grid.cells (grid s)) ⊆ coordinates (Grid.cells (grid (handleAll s rs))) /\
  (length (Grid.cells (grid s)) <= length (Grid.cells (grid (handleAll s rs))))%nat.
Proof.
  unfold handleAll.
  apply (foldl_preserves (fun s' => keepsCells (grid s) (grid s'))).
  - apply keepsCells_refl.
  - intros s' r _ H. eapply keepsCells_trans; [exact H | apply keepsCells_handle].
Qed.

(** X10. When a single-cell command addresses a column beyond the grid, the
    grid is widened to that column and every header is regenerated as the
    column letters: headers renamed earlier are lost. *)
Theorem widening_resets_headers o message userId sessionId s cell col row value raw :
  parseOn (grid s) message = inr (SINGLE cell (Some col) (Some row) value raw) ->
  Grid.columns (grid s) <= col ->
  let s' := fst (processUserMessage o message userId sessionId s) in
  Grid.columns (grid s') = col + 1 /\
  Grid.headers (grid s') = Some <$> generateColumnHeaders (col + 1).
Proof.
  intros Hparse Hcol. cbv zeta.
  rewrite processUserMessage_eq. cbv zeta. rewrite Hparse, applyOn_single.
  set (g := grid s) in *. unfold grid.
  cbn [fst Store.spreadsheetState Grid.setCells Grid.columns Grid.headers].
  unfold autoExpand. cbv zeta.
  replace (Z.max (Grid.columns g) (col + 1)) with (col + 1) by lia.
  destruct (Z.gtb_spec (Z.min (Z.max (Grid.rows g) row) MAX_ROWS) (Grid.rows g));
    cbn [Grid.setRows Grid.columns];
    (destruct (Z.gtb_spec (col + 1) (Grid.columns g)); [done | lia]).
Qed.

Lemma widening_resets_headers_witness :
  let o := Oracle.mk 0 0 "" 0 "" 0 "" in
  let s := fst (processUserMessage o "change column B to Age" None None (newStore 0 0)) in
  let s' := fst (processUserMessage o "AA1 x" None None s) in
  Js.arrayGet (Grid.headers (grid s)) 1 = Some "Age" /\
  Grid.columns (grid s') = 26 + 1 /\
  Grid.headers (grid s') = Some <$> generateColumnHeaders (26 + 1) /\
  Js.arrayGet (Grid.headers (grid s')) 1 = Some "B".
Proof.
  intros o s s'.
  destruct (widening_resets_headers o "AA1 x" None None s (Some "AA1") 26 1 "x" "AA1 x")
    as [Hcols Hheaders]; [by vm_compute | by vm_compute |].
  fold s' in Hcols, Hheaders.
  split; [by vm_compute|]. split; [exact Hcols|]. split; [exact Hheaders|].
  rewrite Hheaders. by vm_compute.
Defined.

(** ** Repeating a call *)

Section Repeating.

Implicit Types (g : Grid.t) (cells : list Cell.t) (cellData : Cell.t).

Lemma columns_rangeStep value row col acc :
  Grid.columns (fst (rangeStep value row col acc))
  = Z.max (Grid.columns (fst acc)) (col + 1).
Proof. unfold rangeStep. simpl. apply autoExpand_columns. Qed.

(** After the loop the grid is large enough for every coordinate of the
    range, up to the cap on the rows. *)
Lemma rangeLoop_bounds value r1 r2 c1 c2 acc row col :
  r1 <= row <= r2 -> c1 <= col <= c2 ->
  Z.min row MAX_ROWS <= Grid.rows (fst (rangeLoop value r1 r2 c1 c2 acc)) /\
  col + 1 <= Grid.columns (fst (rangeLoop value r1 r2 c1 c2 acc)).
Proof.
  intros Hrow Hcol.
  apply (rangeLoop_establishes
           (fun a => Z.min row MAX_ROWS <= Grid.rows (fst a) /\ col + 1 <= Grid.columns (fst a))
           value r1 r2 c1 c2 acc row col).
  - by apply elem_of_fromTo.
  - by apply elem_of_fromTo.
  - intros a. rewrite rows_rangeStep, columns_rangeStep. lia.
  - intros row' col' a. rewrite rows_rangeStep, columns_rangeStep. lia.
Qed.

Lemma rangeStep_fixed value row col g updated :
  Z.min row MAX_ROWS <= Grid.rows g -> col + 1 <= Grid.columns g ->
  cellAt (row - 1) col g = Some (Cell.mk (row - 1) col value defaultFormat) ->
  fst (rangeStep value row col (g, updated)) = g.
Proof.
  intros Hrows Hcols Hcell. unfold rangeStep. cbn [fst].
  rewrite autoExpand_id by done.
  rewrite (upsertCell_found (Cell.mk (row - 1) col value defaultFormat)) by exact Hcell.
  apply setCells_id.
Qed.

Lemma rangeLoop_fixed value r1 r2 c1 c2 g updated updated' :
  fst (rangeLoop value r1 r2 c1 c2 (fst (rangeLoop value r1 r2 c1 c2 (g, updated)), updated'))
  = fst (rangeLoop value r1 r2 c1 c2 (g, updated)).
Proof.
  set (g1 := fst (rangeLoop value r1 r2 c1 c2 (g, updated))).
  apply (rangeLoop_preserves (fun a => fst a = g1)); [done|].
  intros row col [ga upd] Hrow Hcol Ha. cbn [fst] in Ha. subst ga.
  apply elem_of_fromTo in Hrow, Hcol.
  destruct (rangeLoop_bounds value r1 r2 c1 c2 (g, updated) row col Hrow Hcol).
  apply rangeStep_fixed; [done | done |].
  by apply cellAt_rangeLoop.
Qed.

Lemma arraySet_fixed {A} (a : list (option A)) i (v : A) :
  0 <= i -> Js.arraySet (Js.arraySet a i v) i v = Js.arraySet a i v.
Proof.
  intros Hi. pose proof (arrayGet_arraySet_same a i v Hi) as Hget.
  unfold Js.arrayGet in Hget.
  replace (i <? 0) with false in Hget by (symmetry; apply Z.ltb_ge; lia).
  destruct (Js.arraySet a i v !! Z.to_nat i) as [[x|]|] eqn:Hlook; try discriminate.
  injection Hget as ->.
  unfold Js.arraySet at 1.
  destruct (Nat.ltb_spec (Z.to_nat i) (length (Js.arraySet a i v))) as [_|Hout].
  - by apply list_insert_id.
  - apply lookup_lt_Some in Hlook. lia.
Qed.

Lemma applyOn_fixed o1 o2 g message c :
  parseOn g message = inr c ->
  exists events, applyOn o2 c (fst (applyOn o1 c g)) = (fst (applyOn o1 c g), inr events).
Proof.
  intros Hparse.
  destruct c as [cell col row value raw | sc ec c1 r1 c2 r2 value raw | col value raw].
  - destruct (parseOn_single _ _ _ _ _ _ _ Hparse) as [[c ->] [r ->]].
    rewrite !applyOn_single. cbv zeta. cbn [fst]. eexists. f_equal.
    set (ga := autoExpand r c g).
    set (cd := Cell.mk (r - 1) c value defaultFormat).
    rewrite (autoExpand_id r c).
    + cbn [Grid.setCells Grid.cells].
      rewrite (upsertCell_found cd) by apply (find_upsert_same cd).
      by destruct ga.
    + cbn. unfold ga. rewrite autoExpand_rows. lia.
    + cbn. unfold ga. rewrite autoExpand_columns. lia.
  - destruct (applyOn_range o1 sc ec c1 r1 c2 r2 value raw g)
      as (a1 & s1 & -> & _). cbn [fst].
    destruct (applyOn_range o2 sc ec c1 r1 c2 r2 value raw
                (fst (rangeLoop value r1 r2 c1 c2 (g, []))))
      as (a2 & s2 & -> & _).
    rewrite rangeLoop_fixed. eauto.
  - pose proof (parseOn_rename _ _ _ _ _ Hparse) as Hcol.
    rewrite (applyOn_rename o1) by done. cbn [fst].
    rewrite (applyOn_rename o2) by done.
    cbn [Grid.setHeaders Grid.headers Grid.cells Grid.rows Grid.columns].
    rewrite arraySet_fixed by lia. eauto.
Qed.

End Repeating.

(** X11. Sending the same message twice in a row leaves the grid after the
    second call as it was after the first: the second call fails if the
    first failed, and otherwise parses to the same command, finds the grid
    large enough and rewrites the same cells or the same header. *)
Theorem repeated_call_is_idempotent o1 o2 message userId1 sessionId1 userId2 sessionId2 s :
  let first := processUserMessage o1 message userId1 sessionId1 s in
  let second := processUserMessage o2 message userId2 sessionId2 (fst first) in
  grid (fst second) = grid (fst first) /\
  match snd first, snd second with
  | inl _, inl _ => True
  | inr res1, inr res2 => Result.parsedCommand res2 = Result.parsedCommand res1
  | _, _ => False
  end.
Proof.
  cbv zeta. rewrite (processUserMessage_eq o1). cbv zeta.
  destruct (parseOn (grid s) message) as [e|c] eqn:Hparse.
  - cbn [fst snd]. rewrite processUserMessage_eq. cbv zeta.
    unfold grid in *. cbn [Store.spreadsheetState]. by rewrite Hparse.
  - destruct (applyOn_succeeds o1 _ _ _ Hparse) as (g1 & [a1 s1] & Happly).
    rewrite Happly. cbn [fst snd]. rewrite processUserMessage_eq. cbv zeta.
    assert (Hparse1 : parseOn g1 message = inr c).
    { destruct c as [cell col row value raw | sc ec c1 r1 c2 r2 value raw | col value raw].
      - by apply (parseOn_independent (grid s)).
      - by apply (parseOn_independent (grid s)).
      - rewrite <- Hparse. apply parseOn_columns.
        rewrite applyOn_rename in Happly by (by eapply parseOn_rename).
        by injection Happly as <- _. }
    destruct (applyOn_fixed o1 o2 (grid s) message c Hparse) as [[a2 s2] Hfixed].
    rewrite Happly in Hfixed. cbn [fst] in Hfixed.
    unfold grid in *. cbn [Store.spreadsheetState]. rewrite Hparse1, Hfixed. by cbn.
Qed.

(** X12. A successful range command reports in [cellsUpdated] the number
    of coordinates of the rectangle, the product of its height and width
    (each taken as 0 when the end is before the start); both events carry
    the start row as it was written, 1-based, and the start column. A range
    written backwards succeeds and leaves the grid as it was. *)
Theorem range_report o message userId sessionId s sc ec c1 r1 c2 r2 value raw :
  parseOn (grid s) message = inr (RANGE sc ec c1 r1 c2 r2 value raw) ->
  exists s' res,
    processUserMessage o message userId sessionId s = (s', inr res) /\
    ActionEvent.data (Result.actionEvent res)
    = RangeData value (Js.showString sc +:+ "-" +:+ Js.showString ec)
        (Z.max 0 (r2 - r1 + 1) * Z.max 0 (c2 - c1 + 1)) /\
    ActionEvent.target (Result.actionEvent res) = Target.mk r1 c1 /\
    StateEvent.cellData (Result.stateEvent res) = CellData.mk r1 c1 value /\
    (r2 < r1 \/ c2 < c1 -> grid s' = grid s).
Proof.
  intros Hparse. rewrite processUserMessage_eq. cbv zeta. rewrite Hparse.
  unfold applyOn, applyCommand, bind, getState, modifyState, bare.
  cbn [fst snd Store.spreadsheetState Store.userEvents Store.actionEvents Store.stateEvents].
  pose proof (length_rangeLoop value r1 r2 c1 c2 (grid s, [])) as Hlen.
  assert (Hback : r2 < r1 \/ c2 < c1 -> fst (rangeLoop value r1 r2 c1 c2 (grid s, [])) = grid s).
  { intros Hrev. apply (rangeLoop_preserves (fun a => fst a = grid s)); [done|].
    intros row col a Hrow%elem_of_fromTo Hcol%elem_of_fromTo. lia. }
  destruct (rangeLoop value r1 r2 c1 c2 (grid s, [])) as [g' updated].
  cbn [fst snd length] in *. eexists _, _. split; [reflexivity|].
  unfold grid at 1. cbn. split; [|done].
  f_equal. rewrite Hlen. unfold fromTo. rewrite !length_seqZ. lia.
Qed.

Lemma range_report_witness :
  exists s' res,
    processUserMessage (Oracle.mk 0 0 "" 0 "" 0 "") "B3-A1 x" None None (newStore 0 0)
    = (s', inr res) /\
    ActionEvent.data (Result.actionEvent res)
    = RangeData "x" (Js.showString (Some "B3") +:+ "-" +:+ Js.showString (Some "A1"))
        (Z.max 0 (1 - 3 + 1) * Z.max 0 (0 - 1 + 1)) /\
    ActionEvent.target (Result.actionEvent res) = Target.mk 3 1 /\
    StateEvent.cellData (Result.stateEvent res) = CellData.mk 3 1 "x" /\
    (1 < 3 \/ 0 < 1 -> grid s' = grid (newStore 0 0)).
Proof.
  apply (range_report (Oracle.mk 0 0 "" 0 "" 0 "") "B3-A1 x" None None (newStore 0 0)
           (Some "B3") (Some "A1") 1 3 0 1 "x" "B3-A1 x").
  vm_compute. reflexivity.
Defined.

(** X13. [getActionEvents] and [getStateEvents] list the most recent event
    first: after a successful call each begins with the event the call
    returned, followed by what it listed before; after a failed call both
    list what they listed before. *)
Theorem most_recent_first o message userId sessionId s :
  let r := processUserMessage o message userId sessionId s in
  match snd r with
  | inr res =>
      getActionEvents (fst r) = Result.actionEvent res :: getActionEvents s /\
      getStateEvents (fst r) = Result.stateEvent res :: getStateEvents s
  | inl _ =>
      getActionEvents (fst r) = getActionEvents s /\
      getStateEvents (fst r) = getStateEvents s
  end.
Proof.
  cbv zeta. rewrite processUserMessage_eq. cbv zeta.
  destruct (parseOn (grid s) message) as [e|c]; [done|].
  destruct (applyOn o c (grid s)) as [g' [e|[actionEvent stateEvent]]]; [done|].
  unfold getActionEvents, getStateEvents.
  cbn [fst snd Store.actionEvents Store.stateEvents Result.actionEvent Result.stateEvent].
  by rewrite !reverse_snoc.
Qed.

(** X14. The constructed store: 100 rows, 26 columns with the headers A to
    Z, and 1000 cells, one at each coordinate of the first 100 rows and 10
    columns, holding ["Row r Col L"] in the default format, and none
    elsewhere; one mock event in each of the action and state logs and no
    user event. *)
Theorem constructed_store t1 t2 rowIndex col :
  let s := newStore t1 t2 in
  Grid.rows (grid s) = 100 /\ Grid.columns (grid s) = 26 /\
  Grid.headers (grid s) = Some <$> generateColumnHeaders 26 /\
  length (Grid.cells (grid s)) = 1000%nat /\
  cellAt rowIndex col (grid s)
  = (if decide ((0 <= rowIndex < 100) /\ (0 <= col < 10))
     then Some (Cell.mk rowIndex col (mockValue rowIndex col) defaultFormat) else None) /\
  dataCounts s = DataCounts.mk 0 1 1 1000.
Proof.
  cbv zeta. split; [done|]. split; [done|]. split; [done|]. split; [by vm_compute|].
  split; [|by vm_compute].
  unfold cellAt, grid, newStore. cbn [Store.spreadsheetState Grid.cells].
  destruct (decide _) as [[Hrow Hcol]|Hout].
  - assert (Hall : Forall (fun r => Forall (fun c =>
               snd <$> list_find (fun x => Cell.row x = r /\ Cell.col x = c) mockCells
               = Some (Cell.mk r c (mockValue r c) defaultFormat)) (seqZ 0 10)) (seqZ 0 100)).
    { match goal with |- ?P => apply (bool_decide_unpack P) end. by vm_compute. }
    rewrite Forall_forall in Hall.
    specialize (Hall rowIndex ltac:(apply elem_of_seqZ; lia)).
    rewrite Forall_forall in Hall.
    apply Hall. apply elem_of_seqZ. lia.
  - assert (Hin : Forall (fun x => (0 <= Cell.row x < 100) /\ (0 <= Cell.col x < 10)) mockCells).
    { match goal with |- ?P => apply (bool_decide_unpack P) end. by vm_compute. }
    replace (list_find (fun c => Cell.row c = rowIndex /\ Cell.col c = col) mockCells)
      with (@None (nat * Cell.t)); [done|].
    symmetry. apply list_find_None.
    eapply Forall_impl; [exact Hin|]. intros x Hx [<- <-]. by apply Hout.
Qed.

(** ** The HTTP boundary *)

(** X15. [sendMessage] answers 400 exactly when the body has no message, a
    message that is no string, or the empty string, and then the store is
    not touched, not even its log of user events. Every other message
    reaches the service, is logged as a user event, and is answered with
    200 or 500. *)
Theorem sendMessage_validation isDevelopment stack o body s :
  let r := sendMessage isDevelopment stack o body s in
  match Body.message body with
  | Text (String c rest) =>
      length (Store.userEvents (fst r)) = S (length (Store.userEvents s)) /\
      (Response.status (snd r) = 200 \/ Response.status (snd r) = 500)
  | _ => r = (s, Response.mk 400 MessageRequired)
  end.
Proof.
  cbv zeta. unfold sendMessage.
  destruct (Body.message body) as [| |[|c rest]]; try done.
  rewrite processUserMessage_eq. cbv zeta.
  destruct (parseOn (grid s) (String c rest)) as [e|cmd].
  { cbn. rewrite length_app. cbn. split; [lia | by right]. }
  destruct (applyOn o cmd (grid s)) as [g' [e|[actionEvent stateEvent]]]; cbn;
    rewrite length_app; cbn; (split; [lia | auto]).
Qed.

(** X16. For a message that is a non-empty string, [sendMessage] answers
    200 with the user event and the parsed command exactly when
    [parseCommand] accepts the message. When it does not, the answer is
    500, never 400, and the text of the parser's error is never sent: the
    body says 'Failed to process user message' in development and
    'Internal Server Error' otherwise. *)
Theorem sendMessage_outcome isDevelopment stack o userId sessionId c rest s :
  let message := String c rest in
  let r := sendMessage isDevelopment stack o (Body.mk (Text message) userId sessionId) s in
  match parseOn (grid s) message with
  | inr command =>
      snd r = Response.mk 200
                (Processed (userEventOf o message userId sessionId) command)
  | inl _ =>
      snd r = Response.mk 500
                (Failure (if isDevelopment then "Failed to process user message"
                          else "Internal Server Error")
                   (if isDevelopment then Some stack else None)) /\
      grid (fst r) = grid s
  end.
Proof.
  cbv zeta. unfold sendMessage. cbn [Body.message Body.userId Body.sessionId].
  rewrite processUserMessage_eq. cbv zeta.
  destruct (parseOn (grid s) (String c rest)) as [e|cmd] eqn:Hparse.
  - by destruct isDevelopment.
  - by destruct (applyOn_succeeds o _ _ _ Hparse) as (g' & [actionEvent stateEvent] & ->).
Qed.

(** ** The matcher is sound *)

Section Matcher.

Lemma run_star r1 total s caps k :
  run (Star r1) total s caps k = starIter r1 total k (String.length s) s caps.
Proof. reflexivity. Qed.

Lemma string_app_assoc (a b c : string) : (a +:+ b) +:+ c = a +:+ (b +:+ c).
Proof. induction a as [|x a IH]; [done|]. by rewrite !string_app_cons, IH. Qed.

Lemma string_length_app (a b : string) :
  String.length (a +:+ b) = (String.length a + String.length b)%nat.
Proof. induction a as [|x a IH]; [done|]. rewrite string_app_cons. simpl. by rewrite IH. Qed.

Lemma substring_prefix (a b : string) :
  substring 0 (String.length (a +:+ b) - String.length b) (a +:+ b) = a.
Proof.
  rewrite string_length_app.
  replace (String.length a + String.length b - String.length b)%nat
    with (String.length a) by lia.
  induction a as [|x a IH].
  - change ("" +:+ b) with b. by destruct b.
  - rewrite string_app_cons. simpl. by rewrite IH.
Qed.

(** Whatever [run] returns was returned by the continuation, called on
    what is left after a text that [r] matches. *)
Lemma run_sound r : forall total s caps k res,
  run r total s caps k = Some res ->
  exists w rest caps',
    s = w +:+ rest /\ matches r total w rest caps caps' /\ k rest caps' = Some res.
Proof.
  induction r as [|p|r1 IH1 r2 IH2|r1 IH1 r2 IH2|r1 IH1|i r1 IH1| |];
    intros total s caps k res Hrun.
  - exists "", s, caps. by simpl in *.
  - simpl in Hrun. destruct s as [|c s']; [discriminate|].
    destruct (p c) eqn:Hp; [|discriminate].
    exists (String c ""), s', caps. simpl. eauto 6.
  - simpl in Hrun. apply IH1 in Hrun as (w1 & rest1 & caps1 & -> & Hm1 & Hrun).
    apply IH2 in Hrun as (w2 & rest & caps2 & -> & Hm2 & Hk).
    exists (w1 +:+ w2), rest, caps2. rewrite string_app_assoc.
    split; [done|]. split; [|done]. simpl. eauto 8.
  - simpl in Hrun. destruct (run r1 total s caps k) eqn:H1.
    + injection Hrun as ->. apply IH1 in H1 as (w & rest & caps' & -> & Hm & Hk).
      exists w, rest, caps'. simpl. auto.
    + apply IH2 in Hrun as (w & rest & caps' & -> & Hm & Hk).
      exists w, rest, caps'. simpl. auto.
  - rewrite run_star in Hrun. revert Hrun. generalize (String.length s) as fuel.
    intros fuel. revert s caps. induction fuel as [|fuel IHf]; intros s caps Hrun.
    + exists "", s, caps. simpl in *. split; [done|]. split; [constructor | done].
    + simpl in Hrun.
      destruct (run r1 total s caps _) eqn:H1.
      * injection Hrun as ->.
        apply IH1 in H1 as (w1 & rest1 & caps1 & -> & Hm1 & Hk).
        destruct (_ <? _)%nat; [|discriminate].
        apply IHf in Hk as (w2 & rest & caps2 & -> & Hm2 & Hk).
        exists (w1 +:+ w2), rest, caps2. rewrite string_app_assoc.
        split; [done|]. split; [|done]. simpl. by econstructor.
      * exists "", s, caps. split; [done|]. split; [constructor | done].
  - simpl in Hrun. apply IH1 in Hrun as (w & rest & caps1 & -> & Hm & Hk).
    rewrite substring_prefix in Hk.
    exists w, rest, (<[i := w]> caps1). simpl. eauto.
  - simpl in Hrun. destruct (Nat.eqb_spec (String.length s) total); [|discriminate].
    exists "", s, caps. by simpl.
  - simpl in Hrun. destruct s; [|discriminate].
    exists "", "", caps. by simpl.
Qed.

Lemma searchFrom_sound r total s caps :
  searchFrom r total s = Some caps ->
  exists skipped w rest,
    s = skipped +:+ (w +:+ rest) /\ matches r total w rest ∅ caps.
Proof.
  induction s as [|c s IH].
  - simpl. destruct (run r total "" ∅ _) eqn:Hrun; [|discriminate].
    intros [= ->]. apply run_sound in Hrun as (w & rest & caps' & Hs & Hm & [= ->]).
    by exists "", w, rest.
  - simpl. destruct (run r total (String c s) ∅ _) eqn:Hrun.
    + intros [= ->]. apply run_sound in Hrun as (w & rest & caps' & Hs & Hm & [= ->]).
      by exists "", w, rest.
    + intros (skipped & w & rest & -> & Hm)%IH.
      by exists (String c skipped), w, rest.
Qed.

(** A pattern that begins with [^] matches at the start of the input only,
    and one that also ends with [$] matches all of it. *)
Lemma exec_anchored r s caps :
  exec (Bol &> r) s = Some caps ->
  exists w rest, s = w +:+ rest /\ matches r (String.length s) w rest ∅ caps.
Proof.
  unfold exec. intros (skipped & w & rest & Hs & Hm)%searchFrom_sound.
  simpl in Hm. destruct Hm as (w1 & w2 & caps1 & -> & (-> & Hlen & ->) & Hm).
  assert (skipped = "") as ->.
  { apply (f_equal String.length) in Hs. rewrite !string_length_app in *.
    simpl in *. destruct skipped; [done | simpl in *; lia]. }
  by exists w2, rest.
Qed.

End Matcher.

(** ** What the patterns of the parser match *)

Section Patterns.

Lemma allChars_app p (a b : string) :
  allChars p (a +:+ b) = allChars p a && allChars p b.
Proof.
  induction a as [|x a IH]; [done|].
  rewrite string_app_cons. simpl. by rewrite IH, andb_assoc.
Qed.

Lemma matches_star_chr p total w rest caps caps' :
  matches (Star (Chr p)) total w rest caps caps' ->
  allChars p w = true /\ caps' = caps.
Proof.
  simpl. induction 1 as [rest caps|w1 w2 rest caps caps1 caps2 Hhead Htail IH]; [done|].
  destruct Hhead as [(c & -> & Hp) ->]. destruct IH as [IHw ->].
  split; [|done]. rewrite string_app_cons. change ("" +:+ w2) with w2.
  simpl. by rewrite Hp, IHw.
Qed.

Lemma matches_plus_chr p total w rest caps caps' :
  matches (Plus (Chr p)) total w rest caps caps' ->
  w <> "" /\ allChars p w = true /\ caps' = caps.
Proof.
  unfold Plus. intros (w1 & w2 & caps1 & -> & [(c & -> & Hp) ->] & Hstar).
  apply matches_star_chr in Hstar as [Hw2 ->].
  split; [done|]. split; [|done]. rewrite string_app_cons. change ("" +:+ w2) with w2.
  simpl. by rewrite Hp, Hw2.
Qed.

Lemma group_insert_eq (m : gmap nat string) i w : group (<[i := w]> m) i = w.
Proof. unfold group, captures. by rewrite lookup_insert_eq. Qed.

Lemma group_insert_ne (m : gmap nat string) i j w :
  i <> j -> group (<[i := w]> m) j = group m j.
Proof. intros H. unfold group, captures. by rewrite lookup_insert_ne. Qed.

(** [cellPattern]: capital letters, then digits, and nothing else. *)
Lemma exec_cellPattern s caps :
  exec cellPattern s = Some caps ->
  exists L D,
    s = L +:+ D /\ L <> "" /\ allChars Js.isUpper L = true /\
    D <> "" /\ allChars Js.isDigit D = true /\
    group caps 1 = L /\ group caps 2 = D.
Proof.
  intros (w & rest & -> & Hm)%exec_anchored.
  destruct Hm as (L & w2 & caps1 & -> & (caps1' & HL & ->) & Hm).
  destruct Hm as (D & w3 & caps2 & -> & (caps2' & HD & ->) & (-> & -> & ->)).
  apply matches_plus_chr in HL as (HLne & HLup & ->).
  apply matches_plus_chr in HD as (HDne & HDdig & ->).
  exists L, D. rewrite !string_app_empty.
  rewrite group_insert_ne, !group_insert_eq by done. done.
Qed.

(** [endPattern]: optional capital letters, then digits. *)
Lemma exec_endPattern s caps :
  exec endPattern s = Some caps ->
  exists L D,
    s = L +:+ D /\ allChars Js.isUpper L = true /\
    D <> "" /\ allChars Js.isDigit D = true /\
    group caps 1 = L /\ group caps 2 = D.
Proof.
  intros (w & rest & -> & Hm)%exec_anchored.
  destruct Hm as (L & w2 & caps1 & -> & (caps1' & HL & ->) & Hm).
  destruct Hm as (D & w3 & caps2 & -> & (caps2' & HD & ->) & (-> & -> & ->)).
  apply matches_star_chr in HL as (HLup & ->).
  apply matches_plus_chr in HD as (HDne & HDdig & ->).
  exists L, D. rewrite !string_app_empty.
  rewrite group_insert_ne, !group_insert_eq by done. done.
Qed.

(** [rangePattern]: a cell, a hyphen, and an end of optional capital letters
    and digits. *)
Lemma exec_rangePattern s caps :
  exec rangePattern s = Some caps ->
  exists L1 D1 L2 D2,
    s = L1 +:+ D1 +:+ "-" +:+ L2 +:+ D2 /\
    L1 <> "" /\ allChars Js.isUpper L1 = true /\
    D1 <> "" /\ allChars Js.isDigit D1 = true /\
    allChars Js.isUpper L2 = true /\ D2 <> "" /\ allChars Js.isDigit D2 = true /\
    group caps 1 = L1 /\ group caps 2 = D1 /\ group caps 3 = L2 +:+ D2.
Proof.
  intros (w & rest & -> & Hm)%exec_anchored.
  destruct Hm as (L1 & w2 & caps1 & -> & (caps1' & HL1 & ->) & Hm).
  destruct Hm as (D1 & w3 & caps2 & -> & (caps2' & HD1 & ->) & Hm).
  destruct Hm as (h & w4 & caps3 & -> & [(c & -> & Hc) ->] & Hm).
  destruct Hm as (E & w5 & caps4 & -> & (caps4' & HE & ->) & (-> & -> & ->)).
  destruct HE as (L2 & D2 & caps5 & -> & HL2 & HD2).
  apply matches_plus_chr in HL1 as (HL1ne & HL1up & ->).
  apply matches_plus_chr in HD1 as (HD1ne & HD1dig & ->).
  apply matches_star_chr in HL2 as (HL2up & ->).
  apply matches_plus_chr in HD2 as (HD2ne & HD2dig & ->).
  apply Ascii.eqb_eq in Hc as <-.
  exists L1, D1, L2, D2. rewrite !string_app_empty.
  rewrite !group_insert_eq.
  rewrite (group_insert_ne _ 3 1), (group_insert_ne _ 2 1), group_insert_eq by done.
  rewrite (group_insert_ne _ 3 2), group_insert_eq by done.
  done.
Qed.

Lemma letterToColumnIndex_nonneg L :
  L <> "" -> allChars Js.isUpper L = true -> 0 <= letterToColumnIndex L.
Proof.
  destruct L as [|c L]; [done|]. intros _. simpl.
  rewrite andb_true_iff. intros [Hc HL]. apply isUpper_spec in Hc.
  unfold letterToColumnIndex. cbn [letterToColumnIndexLoop].
  replace (0 * 26 + (Js.charCode c - 64)) with (Js.charCode c - 64) by lia.
  pose proof (letterToColumnIndexLoop_nonneg L (Js.charCode c - 64) HL ltac:(lia)). lia.
Qed.

Lemma parseIntGo_nonneg D acc : 0 <= acc -> 0 <= Js.parseIntGo D acc.
Proof.
  revert acc. induction D as [|c D IH]; intros acc Hacc; simpl; [done|].
  destruct (Js.isDigit c) eqn:Hc; [|done]. apply IH.
  unfold Js.isDigit in Hc. apply andb_true_iff in Hc as [H1%Z.leb_le H2]. lia.
Qed.

Lemma parseInt_nonneg D : 0 <= Js.parseInt D.
Proof. by apply parseIntGo_nonneg. Qed.

(** A text of capital letters followed by digits splits in one way. *)
Lemma letters_digits_unique L D L' D' :
  allChars Js.isUpper L = true -> D <> "" -> allChars Js.isDigit D = true ->
  allChars Js.isUpper L' = true -> D' <> "" -> allChars Js.isDigit D' = true ->
  L' +:+ D' = L +:+ D -> L' = L /\ D' = D.
Proof.
  revert L'. induction L as [|x L IH]; intros [|y L'] HL HD HDd HL' HD' HDd' Heq.
  - done.
  - exfalso. change ("" +:+ D) with D in Heq. rewrite string_app_cons in Heq.
    subst D. simpl in HDd, HL'.
    apply andb_true_iff in HL' as [Hu%isUpper_spec _], HDd as [Hd _].
    unfold Js.isDigit in Hd. apply andb_true_iff in Hd as [_ Hd%Z.leb_le]. lia.
  - exfalso. change ("" +:+ D') with D' in Heq. rewrite string_app_cons in Heq.
    subst D'. simpl in HDd', HL.
    apply andb_true_iff in HL as [Hu%isUpper_spec _], HDd' as [Hd _].
    unfold Js.isDigit in Hd. apply andb_true_iff in Hd as [_ Hd%Z.leb_le]. lia.
  - rewrite !string_app_cons in Heq. injection Heq as -> Heq. simpl in HL, HL'.
    apply andb_true_iff in HL as [_ HL], HL' as [_ HL'].
    by destruct (IH L' HL HD HDd HL' HD' HDd' Heq) as [-> ->].
Qed.

End Patterns.

(** X17. The shape of every single-cell command the parser returns for a
    7-bit message: its cell is the upper-cased first word of the message,
    made of one or more capital letters [L] and one or more digits [D] and
    nothing else; the column is [letterToColumnIndex L], never negative,
    the row is the decimal value of [D], at least 1; the value is the
    remaining words joined by single spaces, and [originalCommand] is the
    trimmed message. *)
Theorem single_command_shape g message cell col row value raw :
  sevenBit message = true ->
  parseOn g message = inr (SINGLE cell col row value raw) ->
  exists L D,
    L <> "" /\ allChars Js.isUpper L = true /\ D <> "" /\ allChars Js.isDigit D = true /\
    Js.toUpperCase (default "" (head (Js.splitSpaces (Js.trim message)))) = L +:+ D /\
    cell = Some (L +:+ D) /\
    col = Some (letterToColumnIndex L) /\ 0 <= letterToColumnIndex L /\
    row = Some (Js.parseInt D) /\ 1 <= Js.parseInt D /\
    value = Js.join " " (tail (Js.splitSpaces (Js.trim message))) /\
    raw = Js.trim message.
Proof.
  intros _. unfold parseOn, parseCommand.
  destruct (length _ <? 2)%nat; [discriminate|].
  destruct (exec renamePattern _); [|destruct (exec rangePattern _)].
  - unfold bind, getState, bare; simpl. destruct (_ || _); discriminate.
  - destruct (exec endPattern _); discriminate.
  - destruct (exec cellPattern _) as [m|] eqn:Hcell; [|discriminate].
    apply exec_cellPattern in Hcell as (L & D & Hs & HLne & HLup & HDne & HDdig & -> & ->).
    destruct (Z.ltb_spec (Js.parseInt D) 1); [discriminate|].
    simpl. intros [= <- <- <- <- <-]. exists L, D.
    split; [done|]. split; [done|]. split; [done|]. split; [done|]. split; [done|].
    rewrite Hs. split; [done|]. split; [done|].
    split; [by apply letterToColumnIndex_nonneg|]. split; [done|]. split; [lia|]. done.
Qed.

Lemma single_command_shape_witness :
  exists L D,
    L <> "" /\ allChars Js.isUpper L = true /\ D <> "" /\ allChars Js.isDigit D = true /\
    Js.toUpperCase (default "" (head (Js.splitSpaces (Js.trim " b5   =  42 ")))) = L +:+ D /\
    Some "B5" = Some (L +:+ D) /\
    Some 1 = Some (letterToColumnIndex L) /\ 0 <= letterToColumnIndex L /\
    Some 5 = Some (Js.parseInt D) /\ 1 <= Js.parseInt D /\
    "= 42" = Js.join " " (tail (Js.splitSpaces (Js.trim " b5   =  42 "))) /\
    "b5   =  42" = Js.trim " b5   =  42 ".
Proof.
  apply (single_command_shape (grid (newStore 0 0)) " b5   =  42 ").
  - reflexivity.
  - vm_compute. reflexivity.
Defined.

(** X18. The shape of every range command the parser returns for a 7-bit
    message: the start is
    capital letters and digits, the end is digits with optional capital
    letters before them; the columns are never negative and the end column
    is the start column when the end has no letters; the rows are the
    decimal values of the digits, never negative. Nothing more is checked:
    a row may be 0 and the end may lie before the start. *)
Theorem range_command_shape g message sc ec c1 r1 c2 r2 value raw :
  sevenBit message = true ->
  parseOn g message = inr (RANGE sc ec c1 r1 c2 r2 value raw) ->
  exists L1 D1 L2 D2,
    L1 <> "" /\ allChars Js.isUpper L1 = true /\ D1 <> "" /\ allChars Js.isDigit D1 = true /\
    allChars Js.isUpper L2 = true /\ D2 <> "" /\ allChars Js.isDigit D2 = true /\
    Js.toUpperCase (default "" (head (Js.splitSpaces (Js.trim message))))
    = L1 +:+ D1 +:+ "-" +:+ L2 +:+ D2 /\
    sc = Some (L1 +:+ D1) /\ ec = Some (L2 +:+ D2) /\
    c1 = letterToColumnIndex L1 /\ 0 <= c1 /\ r1 = Js.parseInt D1 /\ 0 <= r1 /\
    c2 = (if String.eqb L2 "" then c1 else letterToColumnIndex L2) /\ 0 <= c2 /\
    r2 = Js.parseInt D2 /\ 0 <= r2 /\
    value = Js.join " " (tail (Js.splitSpaces (Js.trim message))) /\
    raw = Js.trim message.
Proof.
  intros _. unfold parseOn, parseCommand.
  destruct (length _ <? 2)%nat; [discriminate|].
  destruct (exec renamePattern _); [|destruct (exec rangePattern _) as [m|] eqn:Hrange].
  - unfold bind, getState, bare; simpl. destruct (_ || _); discriminate.
  - apply exec_rangePattern in Hrange
      as (L1 & D1 & L2 & D2 & Hs & ? & ? & ? & ? & HL2 & ? & ? & -> & -> & ->).
    destruct (exec endPattern _) as [m2|] eqn:Hend; [|discriminate].
    apply exec_endPattern in Hend as (L2' & D2' & Hsplit & HL2' & ? & HD2' & -> & ->).
    symmetry in Hsplit.
    simpl. intros [= <- <- <- <- <- <- <- <-].
    destruct (letters_digits_unique L2 D2 L2' D2') as [-> ->]; [done..|].
    exists L1, D1, L2, D2.
    assert (0 <= letterToColumnIndex L1) by (by apply letterToColumnIndex_nonneg).
    repeat (split; [done|]).
    split; [apply parseInt_nonneg|]. split; [done|].
    split; [|split; [done | split; [apply parseInt_nonneg | done]]].
    destruct (String.eqb_spec L2 ""); [done | by apply letterToColumnIndex_nonneg].
  - destruct (exec cellPattern _); [|discriminate]. destruct (_ <? 1); discriminate.
Qed.

Lemma range_command_shape_witness :
  exists L1 D1 L2 D2,
    L1 <> "" /\ allChars Js.isUpper L1 = true /\ D1 <> "" /\ allChars Js.isDigit D1 = true /\
    allChars Js.isUpper L2 = true /\ D2 <> "" /\ allChars Js.isDigit D2 = true /\
    Js.toUpperCase (default "" (head (Js.splitSpaces (Js.trim "c7-a0 up to  here"))))
    = L1 +:+ D1 +:+ "-" +:+ L2 +:+ D2 /\
    Some "C7" = Some (L1 +:+ D1) /\ Some "A0" = Some (L2 +:+ D2) /\
    2 = letterToColumnIndex L1 /\ 0 <= 2 /\ 7 = Js.parseInt D1 /\ 0 <= 7 /\
    0 = (if String.eqb L2 "" then 2 else letterToColumnIndex L2) /\ 0 <= 0 /\
    0 = Js.parseInt D2 /\ 0 <= 0 /\
    "up to here" = Js.join " " (tail (Js.splitSpaces (Js.trim "c7-a0 up to  here"))) /\
    "c7-a0 up to  here" = Js.trim "c7-a0 up to  here".
Proof.
  apply (range_command_shape (grid (newStore 0 0)) "c7-a0 up to  here").
  - reflexivity.
  - vm_compute. reflexivity.
Defined.

(** ** The matcher is greedy *)

Section Greedy.

Lemma starIter_greedy p total K w rest caps res fuel :
  allChars p w = true ->
  match rest with String c _ => p c = false | EmptyString => True end ->
  K rest caps = Some res ->
  (String.length w <= fuel)%nat ->
  starIter (Chr p) total K fuel (w +:+ rest) caps = Some res.
Proof.
  intros Hw Hrest HK. revert fuel. induction w as [|c w IH]; intros fuel Hfuel.
  - change ("" +:+ rest) with rest. destruct fuel as [|fuel]; [done|].
    simpl. destruct rest as [|c rest']; [done|]. by rewrite Hrest.
  - destruct fuel as [|fuel]; [simpl in Hfuel; lia|].
    simpl in Hw. apply andb_true_iff in Hw as [Hc Hw].
    rewrite string_app_cons. simpl. rewrite Hc.
    replace (String.length (w +:+ rest) <? S (String.length (w +:+ rest)))%nat with true
      by (symmetry; apply Nat.ltb_lt; lia).
    rewrite (IH Hw) by (simpl in Hfuel; lia). done.
Qed.

Lemma run_cap i r total s caps K :
  run (Cap i r) total s caps K
  = run r total s caps
      (fun s' caps' => K s' (<[i := substring 0 (String.length s - String.length s') s]> caps')).
Proof. reflexivity. Qed.

Lemma run_seq r1 r2 total s caps K :
  run (r1 &> r2) total s caps K
  = run r1 total s caps (fun s' caps' => run r2 total s' caps' K).
Proof. reflexivity. Qed.

Lemma run_chr_true p total c s caps K :
  p c = true -> run (Chr p) total (String c s) caps K = K s caps.
Proof. intros H. simpl. by rewrite H. Qed.

Lemma run_bol total s caps K :
  String.length s = total -> run Bol total s caps K = K s caps.
Proof. intros <-. simpl. by rewrite Nat.eqb_refl. Qed.

Lemma run_eol total caps K : run Eol total "" caps K = K "" caps.
Proof. reflexivity. Qed.

Lemma run_cap_star_greedy p total K i w rest caps res :
  allChars p w = true ->
  match rest with String c _ => p c = false | EmptyString => True end ->
  K rest (<[i := w]> caps) = Some res ->
  run (Cap i (Star (Chr p))) total (w +:+ rest) caps K = Some res.
Proof.
  intros Hw Hrest HK. rewrite run_cap, run_star.
  apply starIter_greedy; [done | done | | rewrite string_length_app; lia].
  by rewrite substring_prefix.
Qed.

Lemma run_cap_plus_greedy p total K i w rest caps res :
  w <> "" -> allChars p w = true ->
  match rest with String c _ => p c = false | EmptyString => True end ->
  K rest (<[i := w]> caps) = Some res ->
  run (Cap i (Plus (Chr p))) total (w +:+ rest) caps K = Some res.
Proof.
  intros Hne Hw Hrest HK. destruct w as [|c w]; [done|].
  simpl in Hw. apply andb_true_iff in Hw as [Hc Hw].
  unfold Plus. rewrite run_cap, run_seq, string_app_cons, run_chr_true, run_star by done.
  apply starIter_greedy; [done | done | | rewrite string_length_app; lia].
  by rewrite <- string_app_cons, substring_prefix.
Qed.

Lemma searchFrom_first r total s caps :
  run r total s ∅ (fun _ caps => Some caps) = Some caps ->
  searchFrom r total s = Some caps.
Proof. intros H. destruct s; simpl; by rewrite H. Qed.

Lemma digit_not_upper D :
  D <> "" -> allChars Js.isDigit D = true ->
  match D with String c _ => Js.isUpper c = false | EmptyString => True end.
Proof.
  destruct D as [|c D]; [done|]. intros _. simpl.
  rewrite andb_true_iff. intros [Hd _].
  unfold Js.isDigit in Hd. apply andb_true_iff in Hd as [_ Hd%Z.leb_le].
  unfold Js.isUpper. apply andb_false_iff. left. apply Z.leb_gt. lia.
Qed.

(** Capital letters followed by digits are a cell, with the letters and the
    digits as its groups. *)
Lemma exec_cellPattern_complete L D :
  L <> "" -> allChars Js.isUpper L = true -> D <> "" -> allChars Js.isDigit D = true ->
  exists caps, exec cellPattern (L +:+ D) = Some caps /\ group caps 1 = L /\ group caps 2 = D.
Proof.
  intros HLne HL HDne HD. exists (<[2%nat := D]> (<[1%nat := L]> ∅)).
  split; [|by rewrite group_insert_ne, !group_insert_eq].
  unfold exec. apply searchFrom_first. unfold cellPattern.
  rewrite run_seq, run_bol, run_seq by done.
  apply run_cap_plus_greedy; [done | done | by apply digit_not_upper |].
  rewrite run_seq.
  pose proof (run_cap_plus_greedy Js.isDigit (String.length (L +:+ D))
                (fun s' caps' => run Eol (String.length (L +:+ D)) s' caps'
                                   (fun _ caps => Some caps))
                2 D "" (<[1%nat := L]> ∅) (<[2%nat := D]> (<[1%nat := L]> ∅))
                HDne HD I eq_refl) as Hdigits.
  rewrite string_app_empty in Hdigits. exact Hdigits.
Qed.

(** Optional capital letters followed by digits are the end of a range. *)
Lemma exec_endPattern_complete L D :
  allChars Js.isUpper L = true -> D <> "" -> allChars Js.isDigit D = true ->
  exists caps, exec endPattern (L +:+ D) = Some caps.
Proof.
  intros HL HDne HD. exists (<[2%nat := D]> (<[1%nat := L]> ∅)).
  unfold exec. apply searchFrom_first. unfold endPattern.
  rewrite run_seq, run_bol, run_seq by done.
  apply run_cap_star_greedy; [done | by apply digit_not_upper |].
  rewrite run_seq.
  pose proof (run_cap_plus_greedy Js.isDigit (String.length (L +:+ D))
                (fun s' caps' => run Eol (String.length (L +:+ D)) s' caps'
                                   (fun _ caps => Some caps))
                2 D "" (<[1%nat := L]> ∅) (<[2%nat := D]> (<[1%nat := L]> ∅))
                HDne HD I eq_refl) as Hdigits.
  rewrite string_app_empty in Hdigits. exact Hdigits.
Qed.

End Greedy.

(** X19. The parser throws one of four errors and no other: the format
    error for fewer than two words, "Invalid column: L" for a rename of a
    column outside the grid, "Invalid cell format" when the first word is
    no cell and no range, and "Row number must be at least 1" for a single
    cell in row 0. The error "Invalid range format" is never thrown: the
    end of a matched range always matches the pattern of [endMatch]. *)
Theorem parser_errors g message e :
  parseOn g message = inl e ->
  e = CustomError.mk "Invalid command format. Use: <cell> <value> or <range> <value>" 400 \/
  (exists L, e = CustomError.mk ("Invalid column: " +:+ L) 400) \/
  e = CustomError.mk "Invalid cell format. Use: A1, B5, etc." 400 \/
  e = CustomError.mk "Row number must be at least 1" 400.
Proof.
  unfold parseOn, parseCommand.
  destruct (length _ <? 2)%nat; [intros [= <-]; auto|].
  destruct (exec renamePattern _); [|destruct (exec rangePattern _) as [m|] eqn:Hrange].
  - unfold bind, getState, bare; simpl.
    destruct (_ || _); simpl; [intros [= <-]; eauto | discriminate].
  - apply exec_rangePattern in Hrange
      as (L1 & D1 & L2 & D2 & _ & _ & _ & _ & _ & HL2 & HD2ne & HD2 & _ & _ & ->).
    destruct (exec_endPattern_complete L2 D2 HL2 HD2ne HD2) as [caps ->]. discriminate.
  - destruct (exec cellPattern _); [|intros [= <-]; auto].
    destruct (_ <? 1); [intros [= <-]; auto | discriminate].
Qed.

Lemma parser_errors_witness :
  let e := CustomError.mk "Invalid column: AB" 400 in
  e = CustomError.mk "Invalid command format. Use: <cell> <value> or <range> <value>" 400 \/
  (exists L, e = CustomError.mk ("Invalid column: " +:+ L) 400) \/
  e = CustomError.mk "Invalid cell format. Use: A1, B5, etc." 400 \/
  e = CustomError.mk "Row number must be at least 1" 400.
Proof.
  intros e.
  apply (parser_errors (grid (newStore 0 0)) "change column ab to Total" e).
  vm_compute. reflexivity.
Defined.

(** ** Cells stay within the columns *)

Section WithinColumns.

Lemma Forall_upsertCell (P : Cell.t -> Prop) cellData cells :
  P cellData -> Forall P cells -> Forall P (upsertCell cellData cells).
Proof.
  intros Hnew. induction 1 as [|c cells Hc Hcells IH].
  - rewrite upsertCell_nil. by constructor.
  - rewrite upsertCell_cons. destruct (decide _); by constructor.
Qed.

Lemma cellsWithinColumns_write row col value g :
  0 <= col -> 0 <= row -> cellsWithinColumns g ->
  cellsWithinColumns
    (Grid.setCells (upsertCell (Cell.mk (row - 1) col value defaultFormat)
                      (Grid.cells (autoExpand row col g))) (autoExpand row col g)).
Proof.
  intros Hcol Hrow Hg. unfold cellsWithinColumns in *.
  cbn [Grid.setCells Grid.cells Grid.columns].
  rewrite autoExpand_cells, autoExpand_columns.
  apply Forall_upsertCell; [simpl; lia|].
  eapply Forall_impl; [exact Hg|]. simpl. lia.
Qed.

Lemma parseOn_single_bounds g message cell col row value raw :
  parseOn g message = inr (SINGLE cell col row value raw) ->
  exists colIndex rowIndex,
    col = Some colIndex /\ row = Some rowIndex /\ 0 <= colIndex /\ 1 <= rowIndex.
Proof.
  unfold parseOn, parseCommand.
  destruct (length _ <? 2)%nat; [discriminate|].
  destruct (exec renamePattern _); [|destruct (exec rangePattern _)].
  - unfold bind, getState, bare; simpl. destruct (_ || _); discriminate.
  - destruct (exec endPattern _); discriminate.
  - destruct (exec cellPattern _) as [m|] eqn:Hcell; [|discriminate].
    apply exec_cellPattern in Hcell as (L & D & _ & HLne & HLup & _ & _ & -> & ->).
    destruct (Z.ltb_spec (Js.parseInt D) 1); [discriminate|].
    simpl. intros [= <- <- <- <- <-]. eexists _, _.
    split; [done|]. split; [done|]. split; [by apply letterToColumnIndex_nonneg | lia].
Qed.

Lemma parseOn_range_bounds g message sc ec c1 r1 c2 r2 value raw :
  parseOn g message = inr (RANGE sc ec c1 r1 c2 r2 value raw) -> 0 <= c1 /\ 0 <= r1.
Proof.
  unfold parseOn, parseCommand.
  destruct (length _ <? 2)%nat; [discriminate|].
  destruct (exec renamePattern _); [|destruct (exec rangePattern _) as [m|] eqn:Hrange].
  - unfold bind, getState, bare; simpl. destruct (_ || _); discriminate.
  - apply exec_rangePattern in Hrange
      as (L1 & D1 & L2 & D2 & _ & HL1ne & HL1 & _ & _ & _ & _ & _ & -> & -> & _).
    destruct (exec endPattern _); [|discriminate].
    simpl. intros [= <- <- <- <- <- <- <- <-].
    split; [by apply letterToColumnIndex_nonneg | apply parseInt_nonneg].
  - destruct (exec cellPattern _); [|discriminate]. destruct (_ <? 1); discriminate.
Qed.

Lemma cellsWithinColumns_applyOn o g message c :
  parseOn g message = inr c -> cellsWithinColumns g ->
  cellsWithinColumns (fst (applyOn o c g)).
Proof.
  intros Hparse Hg.
  destruct c as [cell col row value raw | sc ec c1 r1 c2 r2 value raw | col value raw].
  - destruct (parseOn_single_bounds _ _ _ _ _ _ _ Hparse)
      as (colIndex & rowIndex & -> & -> & Hcol & Hrow).
    rewrite applyOn_single. cbv zeta. cbn [fst].
    apply cellsWithinColumns_write; (done || lia).
  - destruct (parseOn_range_bounds _ _ _ _ _ _ _ _ _ _ Hparse) as (Hc1 & Hr1).
    destruct (applyOn_range o sc ec c1 r1 c2 r2 value raw g)
      as (actionEvent & stateEvent & -> & _). cbn [fst].
    apply (rangeLoop_preserves (fun a => cellsWithinColumns (fst a))); [done|].
    intros row col a Hrow%elem_of_fromTo Hcol%elem_of_fromTo Ha.
    unfold rangeStep. cbn [fst]. apply cellsWithinColumns_write; (done || lia).
  - rewrite applyOn_rename by (by eapply parseOn_rename). done.
Qed.

End WithinColumns.

(** X20. No call writes a cell outside the columns of the grid: if every
    cell lies in a column from 0 up to the column count, and in a row not
    before row index -1, then so does every cell after any sequence of
    calls. The constructed store starts that way. (Rows have no such bound
    above: the row count stops at the cap while cells are written beyond
    it.) *)
Theorem cells_stay_within_columns s rs :
  cellsWithinColumns (grid s) -> cellsWithinColumns (grid (handleAll s rs)).
Proof.
  intros Hs. unfold handleAll.
  apply (foldl_preserves (fun s' => cellsWithinColumns (grid s'))); [done|].
  intros s' r _ Hs'. unfold handle. rewrite processUserMessage_eq. cbv zeta.
  destruct (parseOn (grid s') (Request.message r)) as [e|c] eqn:Hparse; [done|].
  pose proof (cellsWithinColumns_applyOn (Request.oracle r) _ _ _ Hparse Hs') as H.
  by destruct (applyOn _ c (grid s')) as [g' [e|[actionEvent stateEvent]]].
Qed.

Lemma cells_stay_within_columns_witness :
  let o := Oracle.mk 0 0 "" 0 "" 0 "" in
  cellsWithinColumns
    (grid (handleAll (newStore 0 0)
             [Request.mk o "AB200 y" None None; Request.mk o "A0-2 z" None None])).
Proof.
  intros o. apply cells_stay_within_columns.
  unfold cellsWithinColumns.
  match goal with |- ?P => apply (bool_decide_unpack P) end. by vm_compute.
Defined.

(** ** Words *)

Section Words.

Lemma isSpace_spec c :
  Js.isSpace c = true
  <-> 9 <= Js.charCode c <= 13 \/ Js.charCode c = 32 \/ Js.charCode c = 160.
Proof.
  unfold Js.isSpace. rewrite !orb_true_iff, andb_true_iff, !Z.leb_le, !Z.eqb_eq. tauto.
Qed.

Lemma toUpperCase_app (a b : string) :
  Js.toUpperCase (a +:+ b) = Js.toUpperCase a +:+ Js.toUpperCase b.
Proof.
  induction a as [|x a IH]; [done|]. rewrite string_app_cons. cbn [Js.toUpperCase].
  by rewrite IH, string_app_assoc.
Qed.

Lemma toUpperCase_digits D : allChars Js.isDigit D = true -> Js.toUpperCase D = D.
Proof.
  induction D as [|c D IH]; [done|]. cbn [allChars]. rewrite andb_true_iff. intros [Hc HD].
  unfold Js.isDigit in Hc. apply andb_true_iff in Hc as [_ Hc%Z.leb_le].
  rewrite toUpperCase_cons, IH by (done || lia). f_equal. unfold Js.upperChar.
  destruct (Js.isLower c) eqn:Hl; [|done]. apply isLower_spec in Hl. lia.
Qed.

(** Characters that the [i] flag identifies have the same capitals. *)
Lemma upperChar_toUpperCaseChar c a :
  Js.upperChar c = Js.upperChar a -> Js.toUpperCaseChar c = Js.toUpperCaseChar a.
Proof.
  intros Heq.
  destruct (Js.isLower c) eqn:Hc; destruct (Js.isLower a) eqn:Ha.
  - rewrite !toUpperCaseChar_low, Heq by (apply isLower_spec in Hc, Ha; lia). done.
  - pose proof Heq as Hcode. unfold Js.upperChar in Hcode. rewrite Hc, Ha in Hcode.
    apply isLower_spec in Hc. apply (f_equal Js.charCode) in Hcode.
    rewrite charCode_fromCharCode in Hcode by lia.
    rewrite !toUpperCaseChar_low, Heq by lia. done.
  - pose proof Heq as Hcode. unfold Js.upperChar in Hcode. rewrite Hc, Ha in Hcode.
    apply isLower_spec in Ha. apply (f_equal Js.charCode) in Hcode.
    rewrite charCode_fromCharCode in Hcode by lia.
    rewrite !toUpperCaseChar_low, Heq by lia. done.
  - unfold Js.upperChar in Heq. rewrite Hc, Ha in Heq. by subst.
Qed.

(** A character whose capitals are letters from A to Z is no white space. *)
Lemma upper_image_notSpace c :
  allChars Js.isUpper (Js.toUpperCaseChar c) = true -> notSpace c = true.
Proof.
  unfold notSpace. destruct (Js.isSpace c) eqn:Hsp; [|done]. intros H. exfalso.
  apply isSpace_spec in Hsp.
  rewrite toUpperCaseChar_low in H by lia. cbn [allChars] in H.
  rewrite andb_true_r in H. unfold Js.upperChar in H.
  destruct (Js.isLower c) eqn:Hl; [apply isLower_spec in Hl; lia|].
  apply isUpper_spec in H. lia.
Qed.

Lemma upper_i_letter c : Js.isUpper (Js.upperChar c) = true -> isLetter c = true.
Proof.
  unfold isLetter, Js.upperChar. destruct (Js.isLower c); [by rewrite orb_true_r|].
  intros ->. done.
Qed.

Lemma letter_notSpace c : isLetter c = true -> notSpace c = true.
Proof.
  unfold isLetter, notSpace. rewrite orb_true_iff, isUpper_spec, isLower_spec.
  intros Hc. destruct (Js.isSpace c) eqn:Hsp; [|done].
  apply isSpace_spec in Hsp. lia.
Qed.

Lemma allChars_impl (p q : ascii -> bool) s :
  (forall c, p c = true -> q c = true) -> allChars p s = true -> allChars q s = true.
Proof.
  intros Hpq. induction s as [|c s IH]; [done|]. simpl.
  rewrite !andb_true_iff. intros [Hc Hs]. auto.
Qed.

Lemma matches_lit_i word : forall total w rest caps caps',
  matches (lit_i word) total w rest caps caps' ->
  Js.toUpperCase w = Js.toUpperCase word /\ w <> "" \/ (word = "" /\ w = "").
Proof.
  induction word as [|a word IH]; intros total w rest caps caps' Hm.
  - simpl in Hm. right. tauto.
  - left. simpl in Hm.
    destruct Hm as (w1 & w2 & caps1 & -> & [(c & -> & Hc) ->] & Hm).
    apply Ascii.eqb_eq in Hc. rewrite string_app_cons. split; [|done].
    change ("" +:+ w2) with w2. cbn [Js.toUpperCase].
    rewrite (upperChar_toUpperCaseChar _ _ Hc). f_equal.
    by destruct (IH _ _ _ _ _ Hm) as [[-> _]|[-> ->]].
Qed.

(** A word whose upper-cased form is capital letters holds no white space. *)
Lemma upper_word_notSpace w X :
  Js.toUpperCase w = X -> allChars Js.isUpper X = true -> allChars notSpace w = true.
Proof.
  intros <-. induction w as [|c w IH]; [done|]. cbn [Js.toUpperCase allChars].
  rewrite allChars_app, !andb_true_iff. intros [Hc Hw]. split; [|by apply IH].
  by apply upper_image_notSpace.
Qed.

Lemma splitGo_word a sp more inSep cur :
  a <> "" -> allChars notSpace a = true -> Js.isSpace sp = true ->
  Js.splitGo (a +:+ String sp more) inSep cur = (cur +:+ a) :: Js.splitGo more true "".
Proof.
  intros Hne Ha Hsp. revert inSep cur Hne.
  induction a as [|c a IH]; intros inSep cur Hne; [done|].
  simpl in Ha. apply andb_true_iff in Ha as [Hc Ha].
  unfold notSpace in Hc. apply negb_true_iff in Hc.
  rewrite string_app_cons. simpl. rewrite Hc.
  destruct a as [|d a].
  - change ("" +:+ String sp more) with (String sp more). simpl. by rewrite Hsp.
  - rewrite IH by done. by rewrite string_app_snoc.
Qed.

Lemma splitGo_spaces b s cur :
  allChars Js.isSpace b = true -> Js.splitGo (b +:+ s) true cur = Js.splitGo s true cur.
Proof.
  induction b as [|c b IH]; [done|]. intros Hb. simpl in Hb.
  apply andb_true_iff in Hb as [Hc Hb].
  rewrite string_app_cons. cbn [Js.splitGo]. rewrite Hc. by apply IH.
Qed.

(** The text after one or more white-space characters splits as the text
    itself does after white space. *)
Lemma matches_spaces total b rest caps caps' :
  matches (Plus space) total b rest caps caps' ->
  exists sp b', b = String sp b' /\ Js.isSpace sp = true /\
                allChars Js.isSpace b' = true /\ caps' = caps.
Proof.
  intros (Hne & Hb & ->)%matches_plus_chr. destruct b as [|sp b']; [done|].
  simpl in Hb. apply andb_true_iff in Hb as [? ?]. by exists sp, b'.
Qed.

(** What [renamePattern] matches begins with the words "change" and
    "column", in any case, and a word of letters, the first group. *)
Lemma exec_renamePattern t caps :
  exec renamePattern t = Some caps ->
  exists w1 w2 L more,
    Js.splitSpaces t = w1 :: w2 :: L :: more /\
    Js.toUpperCase w1 = "CHANGE" /\ Js.toUpperCase w2 = "COLUMN" /\
    L <> "" /\ allChars isLetter L = true /\ group caps 1 = L.
Proof.
  intros (w & rest & -> & Hm)%exec_anchored.
  destruct Hm as (w1 & x1 & caps1 & -> & Hw1 & Hm).
  destruct Hm as (b1 & x2 & caps2 & -> & Hb1 & Hm).
  destruct Hm as (w2 & x3 & caps3 & -> & Hw2 & Hm).
  destruct Hm as (b2 & x4 & caps4 & -> & Hb2 & Hm).
  destruct Hm as (L & x5 & caps5 & -> & (caps5' & HL & ->) & Hm).
  destruct Hm as (b3 & x6 & caps6 & -> & Hb3 & Hm).
  apply matches_lit_i in Hw1 as [[Hw1 Hw1ne]|[? _]]; [|done].
  apply matches_lit_i in Hw2 as [[Hw2 Hw2ne]|[? _]]; [|done].
  apply matches_spaces in Hb1 as (sp1 & b1' & -> & Hsp1 & Hb1 & _).
  apply matches_spaces in Hb2 as (sp2 & b2' & -> & Hsp2 & Hb2 & _).
  apply matches_spaces in Hb3 as (sp3 & b3' & -> & Hsp3 & Hb3 & Hcaps6).
  apply matches_plus_chr in HL as (HLne & HLup & ->).
  assert (HLletters : allChars isLetter L = true)
    by (eapply allChars_impl; [apply upper_i_letter | exact HLup]).
  exists w1, w2, L, (Js.splitGo (b3' +:+ x6 +:+ rest) true "").
  split.
  - unfold Js.splitSpaces. rewrite !string_app_assoc.
    rewrite !string_app_cons, (splitGo_word w1) by
      (done || (eapply upper_word_notSpace; [exact Hw1 | done])).
    rewrite splitGo_spaces by done.
    rewrite (splitGo_word w2) by
      (done || (eapply upper_word_notSpace; [exact Hw2 | done])).
    rewrite splitGo_spaces by done.
    rewrite (splitGo_word L) by
      (done || (eapply allChars_impl; [apply letter_notSpace | exact HLletters])).
    done.
  - split; [done|]. split; [done|]. split; [done|]. split; [done|].
    clear -Hm Hcaps6. subst caps6.
    (* the groups set after the first one are other groups *)
    destruct Hm as (o & x7 & caps7 & -> & Hopt & Hm).
    assert (group caps7 1 = L) as H7.
    { destruct Hopt as [Hopt|[_ ->]]; [|apply group_insert_eq].
      destruct Hopt as (h1 & y1 & k1 & -> & Hh1 & Hopt).
      destruct Hopt as (h2 & y2 & k2 & -> & Hh2 & Hopt).
      destruct Hopt as (h3 & y3 & k3 & -> & Hh3 & Hh4).
      assert (Hlit : forall word total w rest a b, matches (lit_i word) total w rest a b -> b = a).
      { clear. induction word as [|c word IH]; intros total w rest a b Hm; simpl in Hm.
        - tauto.
        - destruct Hm as (w1 & w2 & caps1 & -> & [_ ->] & Hm). eauto. }
      apply Hlit in Hh1 as ->, Hh3 as ->.
      apply matches_spaces in Hh2 as (? & ? & _ & _ & _ & ->).
      apply matches_spaces in Hh4 as (? & ? & _ & _ & _ & ->).
      apply group_insert_eq. }
    destruct Hm as (t1 & x8 & caps8 & -> & Hto & Hm).
    destruct Hm as (t2 & x9 & caps9 & -> & Hsp & Hm).
    destruct Hm as (name & x10 & caps10 & -> & (caps10' & Hname & ->) & (_ & _ & ->)).
    assert (Hlit : forall word total w rest a b, matches (lit_i word) total w rest a b -> b = a).
    { clear. induction word as [|c word IH]; intros total w rest a b Hm; simpl in Hm.
      - tauto.
      - destruct Hm as (w1 & w2 & caps1 & -> & [_ ->] & Hm). eauto. }
    apply Hlit in Hto as ->.
    apply matches_spaces in Hsp as (? & ? & _ & _ & _ & ->).
    apply matches_plus_chr in Hname as (_ & _ & ->).
    by rewrite group_insert_ne.
Qed.

End Words.

(** X21. Every 7-bit message whose first word is letters followed by
    digits with a value of at least 1, and that has at least one more word,
    is a single-cell command, whatever the case of the letters and the white
    space around the words: the column is [letterToColumnIndex] of the
    upper-cased letters, the row the value of the digits, and the value the
    remaining words joined by single spaces. *)
Theorem single_command_parses g message L D ts :
  sevenBit message = true ->
  Js.splitSpaces (Js.trim message) = (L +:+ D) :: ts -> ts <> [] ->
  L <> "" -> allChars isLetter L = true ->
  D <> "" -> allChars Js.isDigit D = true -> 1 <= Js.parseInt D ->
  parseOn g message
  = inr (SINGLE (Some (Js.toUpperCase L +:+ D)) (Some (letterToColumnIndex (Js.toUpperCase L)))
           (Some (Js.parseInt D)) (Js.join " " ts) (Js.trim message)).
Proof.
  intros _ Hsplit Hts HLne HL HDne HD Hrow.
  assert (HU : allChars Js.isUpper (Js.toUpperCase L) = true) by (by apply toUpperCase_letters).
  assert (HUne : Js.toUpperCase L <> "").
  { destruct L as [|c L']; [done|]. pose proof HL as Hc. cbn [allChars] in Hc.
    apply andb_true_iff in Hc as [Hc _].
    rewrite toUpperCase_cons by (by apply isLetter_low). done. }
  assert (Hnot : allChars Js.isUpper D = false).
  { destruct D as [|c D]; [done|]. simpl. apply andb_false_iff. left.
    by apply (digit_not_upper (String c D)). }
  unfold parseOn, parseCommand. rewrite Hsplit.
  destruct ts as [|t ts]; [done|].
  change (length ((L +:+ D) :: t :: ts) <? 2)%nat with false.
  change (default "" (head ((L +:+ D) :: t :: ts))) with (L +:+ D).
  change (Js.slice1 ((L +:+ D) :: t :: ts)) with (t :: ts). cbv zeta.
  rewrite toUpperCase_app, (toUpperCase_digits D) by done.
  destruct (exec renamePattern (Js.trim message)) as [m|] eqn:Hrename.
  { exfalso. apply exec_renamePattern in Hrename
      as (w1 & w2 & L' & more & Hparts & Hw1 & _).
    rewrite Hsplit in Hparts. injection Hparts as <- _.
    rewrite toUpperCase_app, (toUpperCase_digits D) in Hw1 by done.
    assert (Hall : allChars Js.isUpper (Js.toUpperCase L +:+ D) = true) by (by rewrite Hw1).
    rewrite allChars_app, Hnot, andb_false_r in Hall. done. }
  destruct (exec rangePattern _) as [m|] eqn:Hrange.
  { exfalso. apply exec_rangePattern in Hrange
      as (L1 & D1 & L2 & D2 & Heq & _).
    apply (f_equal (allChars isUpperOrDigit)) in Heq.
    rewrite !allChars_app in Heq.
    rewrite (allChars_impl Js.isUpper isUpperOrDigit) in Heq
      by (done || (intros c Hc; unfold isUpperOrDigit; by rewrite Hc)).
    rewrite (allChars_impl Js.isDigit isUpperOrDigit D) in Heq
      by (done || (intros c Hc; unfold isUpperOrDigit; by rewrite Hc, orb_true_r)).
    simpl in Heq. by rewrite !andb_false_r in Heq. }
  destruct (exec_cellPattern_complete _ D HUne HU HDne HD) as (caps & -> & -> & ->).
  unfold bare. simpl.
  by replace (Js.parseInt D <? 1) with false by (symmetry; apply Z.ltb_ge; lia).
Qed.

Lemma single_command_parses_witness :
  parseOn (grid (newStore 0 0)) "  ab12   Hello   big  World "
  = inr (SINGLE (Some (Js.toUpperCase "ab" +:+ "12"))
           (Some (letterToColumnIndex (Js.toUpperCase "ab")))
           (Some (Js.parseInt "12")) (Js.join " " ["Hello"; "big"; "World"])
           (Js.trim "  ab12   Hello   big  World ")).
Proof.
  apply (single_command_parses (grid (newStore 0 0)) "  ab12   Hello   big  World "
           "ab" "12" ["Hello"; "big"; "World"]); (reflexivity || discriminate).
Defined.

(** X22. The shape of every rename the parser returns for a 7-bit message:
    the message begins
    with the words "change" and "column", in any case, followed by a word
    of letters; the column is [letterToColumnIndex] of that word
    upper-cased and lies inside the grid; [originalCommand] is the trimmed
    message. *)
Theorem rename_command_shape g message col value raw :
  sevenBit message = true ->
  parseOn g message = inr (HEADER_RENAME col value raw) ->
  exists w1 w2 L more,
    Js.splitSpaces (Js.trim message) = w1 :: w2 :: L :: more /\
    Js.toUpperCase w1 = "CHANGE" /\ Js.toUpperCase w2 = "COLUMN" /\
    L <> "" /\ allChars isLetter L = true /\
    col = letterToColumnIndex (Js.toUpperCase L) /\ 0 <= col < Grid.columns g /\
    raw = Js.trim message.
Proof.
  intros _ Hparse. pose proof (parseOn_rename _ _ _ _ _ Hparse) as Hcol. revert Hparse.
  unfold parseOn, parseCommand.
  destruct (length _ <? 2)%nat; [discriminate|].
  destruct (exec renamePattern _) as [m|] eqn:Hrename;
    [|destruct (exec rangePattern _)].
  - apply exec_renamePattern in Hrename as (w1 & w2 & L & more & Hparts & ? & ? & ? & ? & HL).
    unfold bind, getState, bare; simpl. destruct (_ || _); simpl; [discriminate|].
    intros [= <- <- <-]. rewrite HL in *. by exists w1, w2, L, more.
  - destruct (exec endPattern _); discriminate.
  - destruct (exec cellPattern _); [|discriminate]. destruct (_ <? 1); discriminate.
Qed.

Lemma rename_command_shape_witness :
  exists w1 w2 L more,
    Js.splitSpaces (Js.trim "Change COLUMN b header name to  Age") = w1 :: w2 :: L :: more /\
    Js.toUpperCase w1 = "CHANGE" /\ Js.toUpperCase w2 = "COLUMN" /\
    L <> "" /\ allChars isLetter L = true /\
    1 = letterToColumnIndex (Js.toUpperCase L) /\
    0 <= 1 < Grid.columns (grid (newStore 0 0)) /\
    "Change COLUMN b header name to  Age" = Js.trim "Change COLUMN b header name to  Age".
Proof.
  apply (rename_command_shape (grid (newStore 0 0)) "Change COLUMN b header name to  Age"
           1 "Age" "Change COLUMN b header name to  Age").
  - reflexivity.
  - vm_compute. reflexivity.
Defined.
